(** * The OpenAI provider ([src/providers/openai/index.ts])

    A shallow embedding of [openaiProvider.executeRequest] and the
    properties of its tool-execution loop.

    The two capabilities the provider imports (the chat-completion backend
    of the [openai] SDK and [executeTool] from [@/tools]) and the two
    [JSON] builtins are not code of this file of the repository: they are
    the fields of a record [Env], and every theorem quantifies over it.
    What [executeRequest] does to the outside world is a trace of
    [Event]s, one per invocation of a capability, in the order the
    invocations are made; the capabilities answer as a function of the
    trace so far, which covers any stateful or scripted backend.

    Logging ([console.log], [console.error]) and the clock ([Date.now])
    have no influence on the result and are left out. *)

From stdpp Require Import gmap strings list fin_maps pretty sorting.
From Stdlib Require Import QArith Ascii.
From Equations.Prop Require Import Equations Logic.

Set Warnings "-register-all".
#[local] Open Scope nat_scope.

(** ** Data *)

(** JSON values: what [JSON.parse] returns and what tools take and
    produce. An object is a finite map from keys to values (the
    enumeration order of keys is not modelled). Number literals are the
    integral ones. *)
Inductive Json :=
| JNull
| JBool (b : bool)
| JNumber (n : Z)
| JString (s : string)
| JArray (elems : list Json)
| JObject (members : gmap string Json).

(** JavaScript truthiness, as used by [if (x)], [!x] and [x || d]. *)
Definition truthy_string (s : string) : bool :=
  match s with EmptyString => false | _ => true end.

Definition truthy (o : option string) : bool :=
  match o with Some s => truthy_string s | None => false end.

Definition truthy_json (j : Json) : bool :=
  match j with
  | JNull => false
  | JBool b => b
  | JNumber n => negb (n =? 0)%Z
  | JString s => truthy_string s
  | JArray _ | JObject _ => true
  end.

(** [x || ''] on an optional string and [x || 0] on an optional count. *)
Definition or_empty (o : option string) : string :=
  match o with Some s => s | None => EmptyString end.

Definition or_zero (o : option N) : N :=
  match o with Some n => n | None => 0%N end.

(** Token counts are JavaScript numbers, that is doubles, with natural
    values. Every natural number up to [MAX_EXACT] = 2^53 is a double;
    above it a double is a multiple of its unit in the last place, the
    power of two that leaves 53 bits; [INFINITY] = 2^1024 stands for the
    value Infinity, which every sum past the largest double gives. *)
Definition MAX_EXACT : N := (2 ^ 53)%N.

Definition INFINITY : N := (2 ^ 1024)%N.

Definition is_double (a : N) : Prop :=
  (a ≤ MAX_EXACT)%N
  ∨ a = INFINITY
  ∨ ((a < INFINITY)%N ∧ (2 ^ (N.log2 a - 52) | a)%N).

(** The double nearest to a natural number, ties to the even
    significand: what a number read from the backend is, and what [+]
    gives on the exact sum of two doubles. *)
Definition to_double (x : N) : N :=
  if (x <=? MAX_EXACT)%N then x
  else if (INFINITY <=? x)%N then INFINITY
  else
    let ulp := (2 ^ (N.log2 x - 52))%N in
    let q := (x / ulp)%N in
    let rest := (x mod ulp)%N in
    if (ulp <? 2 * rest)%N || ((2 * rest =? ulp)%N && N.odd q)
    then (ulp * (q + 1))%N else (ulp * q)%N.

(** [a + b] on two counts. *)
Definition js_add (a b : N) : N := to_double (a + b).

(** The own enumerable properties an object spread [{...v}] copies:
    the members of an object, the indexed elements of an array, the
    indexed characters of a string, nothing for the other values. *)
Definition indexed {A} (f : A → Json) (l : list A) : gmap string Json :=
  list_to_map (imap (λ i x, (pretty i, f x)) l).

Definition chars (s : string) : list string :=
  (λ c, String c EmptyString) <$> String.list_ascii_of_string s.

Definition spread (v : Json) : gmap string Json :=
  match v with
  | JObject m => m
  | JArray l => indexed id l
  | JString s => indexed JString (chars s)
  | JNull | JBool _ | JNumber _ => ∅
  end.

(** [{...undefined}] copies nothing. *)
Definition spread_opt (o : option (gmap string Json)) : gmap string Json :=
  default ∅ o.

(** The messages of a conversation: the [{role, content}] entries of the
    caller and of the conversation builder, and the two shapes the loop
    pushes (an assistant entry with null content and one [tool_calls]
    element of type 'function', and a 'tool' entry). *)
Inductive Message :=
| ChatMessage (role : string) (content : string)
| AssistantToolCall (id : string) (name : string) (arguments : string)
| ToolMessage (tool_call_id : string) (content : string).

(** Modelled from the spec: the declaration of a tool descriptor is in
    [../types], which is not part of the sources at hand. The fields
    are those [executeRequest] reads: the unique id, the description, the
    parameter schema and the optional default parameter values. *)
Module Tool.
Record t := {
  id : string;
  description : string;
  parameters : Json;
  params : option (gmap string Json)
}.
End Tool.

(** Modelled from the spec: [ProviderRequest] is declared in [../types],
    which is not part of the sources at hand. The fields are those
    [executeRequest] reads, each optional as its test in the code has
    it. *)
Module Request.
Record t := {
  apiKey : option string;
  systemPrompt : option string;
  context : option string;
  messages : option (list Message);
  tools : option (list Tool.t);
  model : option string;
  temperature : option Q;
  maxTokens : option N;
  responseFormat : option Json
}.
End Request.

(** One element of [payload.tools]: [{type: 'function', function: {...}}]. *)
Module FunctionTool.
Record t := {
  name : string;
  description : string;
  parameters : Json
}.
End FunctionTool.

Module Payload.
Record t := {
  model : string;
  messages : list Message;
  temperature : option Q;
  max_tokens : option N;
  response_format : option string;
  tools : option (list FunctionTool.t);
  tool_choice : option string
}.
End Payload.

(** A completion of the backend. *)
Module ToolCall.
Record t := {
  id : string;
  name : string;        (* function.name *)
  arguments : string    (* function.arguments, the raw payload *)
}.
End ToolCall.

Module ChoiceMessage.
Record t := {
  content : option string;
  tool_calls : option (list ToolCall.t)
}.
End ChoiceMessage.

(** Token counts are JavaScript numbers with natural values. *)
Module Usage.
Record t := {
  prompt_tokens : option N;
  completion_tokens : option N;
  total_tokens : option N
}.
End Usage.

Module Completion.
Record t := {
  choices : list (option ChoiceMessage.t);   (* choices[i]?.message *)
  usage : option Usage.t
}.
End Completion.

(** Modelled from the spec: what [executeTool] of [@/tools] resolves to,
    a success flag and an output payload. The output is a JSON value,
    which [JSON.stringify] serializes without throwing. *)
Module ToolResponse.
Record t := {
  success : bool;
  output : Json
}.
End ToolResponse.

Module Tokens.
Record t := {
  prompt : N;
  completion : N;
  total : N
}.
End Tokens.

(** One element of [toolCalls]: [{name, arguments}] with parsed arguments. *)
Module RequestedCall.
Record t := {
  name : string;
  arguments : Json
}.
End RequestedCall.

(** Modelled from the spec: [ProviderResponse] is declared in [../types],
    which is not part of the sources at hand. The fields are those the
    two [return] statements of [executeRequest] build. *)
Module Response.
Record t := {
  content : string;
  model : option string;
  tokens : Tokens.t;
  toolCalls : option (list RequestedCall.t);
  toolResults : option (list Json)   (* absent and undefined are one *)
}.
End Response.

(** ** Effects *)

(** What a [throw] or a rejected promise carries. *)
Inductive Exn :=
| Error (message : string)
| SyntaxError
| Rejected (reason : string).

Inductive Result (A : Type) :=
| Ok (a : A)
| Throw (e : Exn).
Arguments Ok {A} a.
Arguments Throw {A} e.

(** One invocation of a capability, with what it answered. *)
Inductive Event :=
| EvCompletion (payload : Payload.t) (answer : Result Completion.t)
| EvExecuteTool (name : string) (args : gmap string Json) (raw : bool)
    (answer : Result ToolResponse.t).

Record Env := {
  JSON_parse : string → option Json;          (* None: throws SyntaxError *)
  JSON_stringify : Json → string;
  create : list Event → Payload.t → Result Completion.t;
  executeTool :
    list Event → string → gmap string Json → bool → Result ToolResponse.t
}.

(** Computations that extend the trace and may throw. *)
Definition M (A : Type) : Type := list Event → Result A * list Event.

#[export] Instance M_ret : MRet M := λ A a h, (Ok a, h).

#[export] Instance M_bind : MBind M := λ A B f m h,
  match m h with
  | (Ok a, h') => f a h'
  | (Throw e, h') => (Throw e, h')
  end.

Definition throw {A} (e : Exn) : M A := λ h, (Throw e, h).

(** [try { m } catch (error) { handler }] *)
Definition try_catch {A} (m : M A) (handler : Exn → M A) : M A := λ h,
  match m h with
  | (Ok a, h') => (Ok a, h')
  | (Throw e, h') => handler e h'
  end.

(** [await openai.chat.completions.create(payload)] *)
Definition await_create (env : Env) (payload : Payload.t) : M Completion.t :=
  λ h, let r := create env h payload in (r, h ++ [EvCompletion payload r]).

(** [await executeTool(name, args, raw)] *)
Definition await_executeTool (env : Env) (name : string)
    (args : gmap string Json) (raw : bool) : M ToolResponse.t :=
  λ h, let r := executeTool env h name args raw in
       (r, h ++ [EvExecuteTool name args raw r]).

Definition is_completion (ev : Event) : bool :=
  match ev with EvCompletion _ _ => true | EvExecuteTool _ _ _ _ => false end.

Definition is_execution (ev : Event) : bool :=
  match ev with EvCompletion _ _ => false | EvExecuteTool _ _ _ _ => true end.

(** How many times each capability was invoked in a trace. *)
Definition completions (evs : list Event) : nat :=
  length (List.filter is_completion evs).

Definition executions (evs : list Event) : nat :=
  length (List.filter is_execution evs).

(** ** The provider *)

Inductive ToolExecutionMode := sync | parameters_only.

(** [const toolExecutionMode = 'parameters-only'] *)
Definition toolExecutionMode : ToolExecutionMode := parameters_only.

Definition is_parameters_only (mode : ToolExecutionMode) : bool :=
  match mode with parameters_only => true | sync => false end.

Definition MAX_ITERATIONS : nat := 10.

(** The conversation: system prompt, context, then the caller's messages. *)
Definition allMessages (request : Request.t) : list Message :=
  (if truthy (Request.systemPrompt request)
   then [ChatMessage "system" (or_empty (Request.systemPrompt request))]
   else [])
  ++ (if truthy (Request.context request)
      then [ChatMessage "user" (or_empty (Request.context request))]
      else [])
  ++ default [] (Request.messages request).

(** The function declaration of a tool. *)
Definition schema (tool : Tool.t) : FunctionTool.t :=
  {| FunctionTool.name := Tool.id tool;
     FunctionTool.description := Tool.description tool;
     FunctionTool.parameters := Tool.parameters tool |}.

(** [request.tools?.length ? request.tools.map(...) : undefined] *)
Definition tools (request : Request.t) : option (list FunctionTool.t) :=
  match Request.tools request with
  | Some (tool :: rest) => Some (schema <$> tool :: rest)
  | Some [] | None => None
  end.

(** The request payload, after the optional fields have been added. *)
Definition payload (request : Request.t) : Payload.t :=
  {| Payload.model :=
       if truthy (Request.model request)
       then or_empty (Request.model request) else "gpt-4o";
     Payload.messages := allMessages request;
     Payload.temperature := Request.temperature request;
     Payload.max_tokens := Request.maxTokens request;
     Payload.response_format :=
       match Request.responseFormat request with
       | Some f => if truthy_json f then Some "json_object" else None
       | None => None
       end;
     Payload.tools :=
       match tools request with
       | Some (t :: ts) => Some (t :: ts)
       | Some [] | None => None
       end;
     Payload.tool_choice :=
       match tools request with
       | Some (_ :: _) => Some "auto"
       | Some [] | None => None
       end |}.

(** [{...payload, messages: currentMessages}] *)
Definition with_messages (p : Payload.t) (msgs : list Message) : Payload.t :=
  {| Payload.model := Payload.model p;
     Payload.messages := msgs;
     Payload.temperature := Payload.temperature p;
     Payload.max_tokens := Payload.max_tokens p;
     Payload.response_format := Payload.response_format p;
     Payload.tools := Payload.tools p;
     Payload.tool_choice := Payload.tool_choice p |}.

(** [currentResponse.choices[0]?.message] *)
Definition message (currentResponse : Completion.t)
    : option ChoiceMessage.t :=
  mjoin (head (Completion.choices currentResponse)).

(** [currentResponse.choices[0]?.message?.content] *)
Definition message_content (currentResponse : Completion.t) : option string :=
  message currentResponse ≫= ChoiceMessage.content.

(** [currentResponse.choices[0]?.message?.tool_calls] *)
Definition message_tool_calls (currentResponse : Completion.t)
    : option (list ToolCall.t) :=
  message currentResponse ≫= ChoiceMessage.tool_calls.

(** The usage of a completion, each count [|| 0], all three 0 when the
    completion has no usage. A count is read as the double it is. *)
Definition usage_tokens (currentResponse : Completion.t) : Tokens.t :=
  match Completion.usage currentResponse with
  | Some u =>
      {| Tokens.prompt := to_double (or_zero (Usage.prompt_tokens u));
         Tokens.completion := to_double (or_zero (Usage.completion_tokens u));
         Tokens.total := to_double (or_zero (Usage.total_tokens u)) |}
  | None => {| Tokens.prompt := 0; Tokens.completion := 0; Tokens.total := 0 |}
  end.

(** [tokens.prompt += ...], [tokens.completion += ...],
    [tokens.total += ...]: additions of JavaScript numbers. *)
Definition add_tokens (a b : Tokens.t) : Tokens.t :=
  {| Tokens.prompt := js_add (Tokens.prompt a) (Tokens.prompt b);
     Tokens.completion := js_add (Tokens.completion a) (Tokens.completion b);
     Tokens.total := js_add (Tokens.total a) (Tokens.total b) |}.

(** [toolCallsInResponse.map((toolCall) => ({ name, arguments:
    JSON.parse(...) }))]: the first payload that does not parse throws
    out of the map. *)
Fixpoint map_toolCalls (env : Env) (calls : list ToolCall.t)
    : M (list RequestedCall.t) :=
  match calls with
  | [] => mret []
  | toolCall :: rest =>
      match JSON_parse env (ToolCall.arguments toolCall) with
      | None => throw SyntaxError
      | Some args =>
          parsed ← map_toolCalls env rest;
          mret ({| RequestedCall.name := ToolCall.name toolCall;
                   RequestedCall.arguments := args |} :: parsed)
      end
  end.

(** The variables the loop updates. *)
Record LoopVars := {
  content : string;
  tokens : Tokens.t;
  toolCallsInResponse : option (list ToolCall.t);
  toolResults : list Json;
  currentMessages : list Message
}.

(** [request.tools?.find((t) => t.id === toolName)] *)
Definition find_tool (request : Request.t) (toolName : string)
    : option Tool.t :=
  List.find (λ t, String.eqb (Tool.id t) toolName)
    (default [] (Request.tools request)).

(** The body of the [try] inside [for (const toolCall of ...)], on the
    two arrays it pushes to. Nothing is pushed before the last point
    where it can throw. *)
Definition processToolCall (env : Env) (request : Request.t)
    (toolCall : ToolCall.t) (acc : list Json * list Message)
    : M (list Json * list Message) :=
  let toolName := ToolCall.name toolCall in
  match JSON_parse env (ToolCall.arguments toolCall) with
  | None => throw SyntaxError
  | Some toolArgs =>
      match find_tool request toolName with
      | None => mret acc                                    (* continue *)
      | Some tool =>
          let mergedArgs := spread toolArgs ∪ spread_opt (Tool.params tool) in
          result ← await_executeTool env toolName mergedArgs true;
          if negb (ToolResponse.success result) then mret acc (* continue *)
          else
            mret (acc.1 ++ [ToolResponse.output result],
                  acc.2 ++ [AssistantToolCall (ToolCall.id toolCall) toolName
                              (ToolCall.arguments toolCall);
                            ToolMessage (ToolCall.id toolCall)
                              (JSON_stringify env (ToolResponse.output result))])
      end
  end.

(** One turn of the [for]: the body under its [try]/[catch], whose
    handler only logs. *)
Definition tryToolCall (env : Env) (request : Request.t)
    (toolCall : ToolCall.t) (acc : list Json * list Message)
    : M (list Json * list Message) :=
  try_catch (processToolCall env request toolCall acc) (λ _, mret acc).

Fixpoint forToolCalls (env : Env) (request : Request.t)
    (calls : list ToolCall.t) (acc : list Json * list Message)
    : M (list Json * list Message) :=
  match calls with
  | [] => mret acc
  | toolCall :: rest =>
      acc' ← tryToolCall env request toolCall acc;
      forToolCalls env request rest acc'
  end.

(** The variables after the next completion: content when it has text,
    the new tool calls, the token counts when it has usage. *)
Definition next_vars (st : LoopVars) (acc : list Json * list Message)
    (currentResponse : Completion.t) : LoopVars :=
  {| content :=
       if truthy (message_content currentResponse)
       then or_empty (message_content currentResponse)
       else content st;
     tokens :=
       match Completion.usage currentResponse with
       | Some _ => add_tokens (tokens st) (usage_tokens currentResponse)
       | None => tokens st
       end;
     toolCallsInResponse := message_tool_calls currentResponse;
     toolResults := acc.1;
     currentMessages := acc.2 |}.

(** One iteration of the [while], past its [break] test: the batch, then
    the next completion on the updated messages. *)
Definition iteration (env : Env) (request : Request.t)
    (calls : list ToolCall.t) (st : LoopVars) : M LoopVars :=
  acc ← forToolCalls env request calls (toolResults st, currentMessages st);
  let nextPayload := with_messages (payload request) acc.2 in
  currentResponse ← await_create env nextPayload;
  mret (next_vars st acc currentResponse).

(** [while (iterationCount < MAX_ITERATIONS) { ... iterationCount++ }];
    the enclosing [try]/[catch] rethrows. Returns the final
    [iterationCount] with the variables. *)
Equations? while_loop (env : Env) (request : Request.t)
    (iterationCount : nat) (st : LoopVars) (h : list Event)
    : Result (nat * LoopVars) * list Event
    by wf (MAX_ITERATIONS - iterationCount) lt :=
  while_loop env request iterationCount st h
    with inspect (iterationCount <? MAX_ITERATIONS) => {
    | exist _ false _ := (Ok (iterationCount, st), h);
    | exist _ true Hlt with toolCallsInResponse st => {
        | None := (Ok (iterationCount, st), h);                  (* break *)
        | Some [] := (Ok (iterationCount, st), h);               (* break *)
        | Some (toolCall :: rest)
            with iteration env request (toolCall :: rest) st h => {
            | (Ok st', h') := while_loop env request (S iterationCount) st' h';
            | (Throw e, h') := (Throw e, h') } } }.
Proof. apply Nat.ltb_lt in Hlt. unfold MAX_ITERATIONS in *. lia. Qed.

(** Which [return] is reached, with the variables it reads. *)
Inductive Exit :=
| ReturnImmediately (content : string) (tokens : Tokens.t)
    (toolCalls : list RequestedCall.t)
| ReturnAfterLoop (toolCalls : list RequestedCall.t)
    (iterationCount : nat) (st : LoopVars).

Definition or_undefined {A} (l : list A) : option (list A) :=
  match l with [] => None | _ :: _ => Some l end.

Definition response (request : Request.t) (e : Exit) : Response.t :=
  match e with
  | ReturnImmediately content tokens toolCalls =>
      {| Response.content := content;
         Response.model := Request.model request;
         Response.tokens := tokens;
         Response.toolCalls := or_undefined toolCalls;
         Response.toolResults := None |}
  | ReturnAfterLoop toolCalls _ st =>
      {| Response.content := content st;
         Response.model := Request.model request;
         Response.tokens := tokens st;
         Response.toolCalls := or_undefined toolCalls;
         Response.toolResults := or_undefined (toolResults st) |}
  end.

(** The variables on entry to the loop. *)
Definition initial_vars (request : Request.t) (currentResponse : Completion.t)
    : LoopVars :=
  {| content := or_empty (message_content currentResponse);
     tokens := usage_tokens currentResponse;
     toolCallsInResponse := message_tool_calls currentResponse;
     toolResults := [];
     currentMessages := allMessages request |}.

(** The body of [executeRequest] up to its [return], for either value
    the constant [toolExecutionMode] is documented to take. *)
Definition executeRequest_body (mode : ToolExecutionMode) (env : Env)
    (request : Request.t) : M Exit :=
  if negb (truthy (Request.apiKey request))
  then throw (Error "API key is required for OpenAI")
  else
    currentResponse ← await_create env (payload request);
    let content := or_empty (message_content currentResponse) in
    let tokens := usage_tokens currentResponse in
    let toolCallsInResponse := message_tool_calls currentResponse in
    toolCalls ← match toolCallsInResponse with
                | Some calls => map_toolCalls env calls
                | None => mret []
                end;
    if is_parameters_only mode || bool_decide (length toolCalls = 0)
    then mret (ReturnImmediately content tokens toolCalls)
    else
      '(iterationCount, st) ←
        while_loop env request 0 (initial_vars request currentResponse);
      mret (ReturnAfterLoop toolCalls iterationCount st).

Definition executeRequest_in (mode : ToolExecutionMode) (env : Env)
    (request : Request.t) : M Response.t :=
  e ← executeRequest_body mode env request;
  mret (response request e).

(** [openaiProvider.executeRequest] *)
Definition executeRequest (env : Env) (request : Request.t) : M Response.t :=
  executeRequest_in toolExecutionMode env request.

(** ** Test doubles

    A small [JSON.parse] and [JSON.stringify] and scripted capabilities,
    to run the provider on concrete inputs. The parser reads JSON texts
    without fractions, exponents and string escapes, and fails on every
    other text; the printer writes what the parser reads. *)
Module Stub.

Definition dquote : ascii := ascii_of_nat 34.

Definition is_ws (c : ascii) : bool :=
  bool_decide (c = " "%char) || bool_decide (c = ascii_of_nat 9)
  || bool_decide (c = ascii_of_nat 10) || bool_decide (c = ascii_of_nat 13).

Fixpoint skip_ws (s : list ascii) : list ascii :=
  match s with
  | c :: r => if is_ws c then skip_ws r else s
  | [] => []
  end.

Fixpoint strip_prefix (p s : list ascii) : option (list ascii) :=
  match p, s with
  | [], _ => Some s
  | a :: p', b :: s' => if bool_decide (a = b) then strip_prefix p' s' else None
  | _ :: _, [] => None
  end.

Definition digit (c : ascii) : option Z :=
  let n := nat_of_ascii c in
  if (48 <=? n) && (n <=? 57) then Some (Z.of_nat (n - 48)) else None.

Fixpoint take_digits (s : list ascii) (acc : Z) : Z * list ascii :=
  match s with
  | c :: r =>
      match digit c with
      | Some d => take_digits r (10 * acc + d)
      | None => (acc, s)
      end
  | [] => (acc, [])
  end.

(** An integer literal: no leading zero before another digit. *)
Definition take_int (s : list ascii) : option (Z * list ascii) :=
  match s with
  | c :: r =>
      match digit c with
      | Some 0%Z => Some (0%Z, r)
      | Some d => Some (take_digits r d)
      | None => None
      end
  | [] => None
  end.

(** The characters up to the closing quote. *)
Fixpoint take_string (s : list ascii) : option (string * list ascii) :=
  match s with
  | c :: r =>
      if bool_decide (c = dquote) then Some (EmptyString, r)
      else if bool_decide (c = "\"%char) || (nat_of_ascii c <? 32) then None
      else '(str, r') ← take_string r; Some (String c str, r')
  | [] => None
  end.

Fixpoint parse_value (fuel : nat) (s : list ascii) : option (Json * list ascii) :=
  match fuel with
  | 0 => None
  | S fuel =>
      match skip_ws s with
      | c :: r =>
          if bool_decide (c = dquote) then
            '(str, r') ← take_string r; Some (JString str, r')
          else if bool_decide (c = "["%char) then
            match skip_ws r with
            | c' :: r' =>
                if bool_decide (c' = "]"%char) then Some (JArray [], r')
                else parse_elems fuel r []
            | [] => None
            end
          else if bool_decide (c = "{"%char) then
            match skip_ws r with
            | c' :: r' =>
                if bool_decide (c' = "}"%char) then Some (JObject ∅, r')
                else parse_members fuel r ∅
            | [] => None
            end
          else if bool_decide (c = "-"%char) then
            '(n, r') ← take_int r; Some (JNumber (- n), r')
          else
            match strip_prefix (String.list_ascii_of_string "null") (c :: r),
                  strip_prefix (String.list_ascii_of_string "true") (c :: r),
                  strip_prefix (String.list_ascii_of_string "false") (c :: r)
            with
            | Some r', _, _ => Some (JNull, r')
            | _, Some r', _ => Some (JBool true, r')
            | _, _, Some r' => Some (JBool false, r')
            | None, None, None =>
                '(n, r') ← take_int (c :: r); Some (JNumber n, r')
            end
      | [] => None
      end
  end
with parse_elems (fuel : nat) (s : list ascii) (acc : list Json)
    : option (Json * list ascii) :=
  match fuel with
  | 0 => None
  | S fuel =>
      '(v, r) ← parse_value fuel s;
      match skip_ws r with
      | c :: r' =>
          if bool_decide (c = ","%char) then parse_elems fuel r' (acc ++ [v])
          else if bool_decide (c = "]"%char) then Some (JArray (acc ++ [v]), r')
          else None
      | [] => None
      end
  end
with parse_members (fuel : nat) (s : list ascii) (acc : gmap string Json)
    : option (Json * list ascii) :=
  match fuel with
  | 0 => None
  | S fuel =>
      match skip_ws s with
      | q :: r =>
          if bool_decide (q = dquote) then
            '(k, r1) ← take_string r;
            match skip_ws r1 with
            | c :: r2 =>
                if bool_decide (c = ":"%char) then
                  '(v, r3) ← parse_value fuel r2;
                  match skip_ws r3 with
                  | c' :: r4 =>
                      if bool_decide (c' = ","%char)
                      then parse_members fuel r4 (<[k:=v]> acc)
                      else if bool_decide (c' = "}"%char)
                      then Some (JObject (<[k:=v]> acc), r4)
                      else None
                  | [] => None
                  end
                else None
            | [] => None
            end
          else None
      | [] => None
      end
  end.

Definition parse (text : string) : option Json :=
  '(v, r) ← parse_value (2 * String.length text + 2)
              (String.list_ascii_of_string text);
  match skip_ws r with [] => Some v | _ :: _ => None end.

Definition quoted (s : string) : string :=
  String dquote s +:+ String dquote EmptyString.

Definition join (l : list string) : string :=
  match l with
  | [] => EmptyString
  | x :: r => foldl (λ acc y, acc +:+ "," +:+ y) x r
  end.

Fixpoint stringify_upto (depth : nat) (v : Json) : string :=
  match depth with
  | 0 => "null"
  | S depth =>
      match v with
      | JNull => "null"
      | JBool b => if b then "true" else "false"
      | JNumber n => pretty n
      | JString s => quoted s
      | JArray l => "[" +:+ join (stringify_upto depth <$> l) +:+ "]"
      | JObject m =>
          "{" +:+ join ((λ kv, quoted kv.1 +:+ ":" +:+ stringify_upto depth kv.2)
                          <$> map_to_list m) +:+ "}"
      end
  end.

Definition stringify (v : Json) : string := stringify_upto 64 v.

(** The text of an object with one member. *)
Definition member (k : string) (v : string) : string :=
  "{" +:+ quoted k +:+ ":" +:+ v +:+ "}".

(** A backend that answers its n-th invocation with the n-th entry of a
    script, and with [otherwise] past its end. *)
Definition scripted (script : list (Result Completion.t))
    (otherwise : Result Completion.t)
    : list Event → Payload.t → Result Completion.t :=
  λ h _, default otherwise (script !! completions h).

Definition env (script : list (Result Completion.t))
    (otherwise : Result Completion.t)
    (run : string → gmap string Json → Result ToolResponse.t) : Env :=
  {| JSON_parse := parse;
     JSON_stringify := stringify;
     create := scripted script otherwise;
     executeTool := λ _ name args _, run name args |}.

(** A tool executor that succeeds and returns its arguments. *)
Definition echo (name : string) (args : gmap string Json)
    : Result ToolResponse.t :=
  Ok {| ToolResponse.success := true; ToolResponse.output := JObject args |}.

(** A tool executor that reports failure. *)
Definition failing (name : string) (args : gmap string Json)
    : Result ToolResponse.t :=
  Ok {| ToolResponse.success := false; ToolResponse.output := JNull |}.

Definition usage (p c t : N) : option Usage.t :=
  Some {| Usage.prompt_tokens := Some p;
          Usage.completion_tokens := Some c;
          Usage.total_tokens := Some t |}.

Definition answer (text : option string) (calls : option (list ToolCall.t))
    (u : option Usage.t) : Result Completion.t :=
  Ok {| Completion.choices :=
          [Some {| ChoiceMessage.content := text;
                   ChoiceMessage.tool_calls := calls |}];
        Completion.usage := u |}.

Definition call (id name arguments : string) : ToolCall.t :=
  {| ToolCall.id := id; ToolCall.name := name;
     ToolCall.arguments := arguments |}.

Definition tool (id : string) (params : option (gmap string Json)) : Tool.t :=
  {| Tool.id := id;
     Tool.description := "a tool";
     Tool.parameters := JObject ∅;
     Tool.params := params |}.

Definition request (apiKey : option string) (tools : option (list Tool.t))
    : Request.t :=
  {| Request.apiKey := apiKey;
     Request.systemPrompt := Some "You are a helpful assistant";
     Request.context := None;
     Request.messages := Some [ChatMessage "user" "hello"];
     Request.tools := tools;
     Request.model := None;
     Request.temperature := None;
     Request.maxTokens := None;
     Request.responseFormat := None |}.

(** Concrete inputs. [looping] requests tool A on every invocation. *)
Definition looping : Result Completion.t :=
  answer (Some "thinking") (Some [call "c1" "A" "{}"]) (usage 10 5 15).

Definition env_looping : Env := env [] looping echo.

Definition defaults : gmap string Json :=
  {[ "x" := JNumber 1; "y" := JNumber 2 ]}.

Definition request_A : Request.t :=
  request (Some "sk-test") (Some [tool "A" (Some defaults)]).

Definition request_AB : Request.t :=
  request (Some "sk-test") (Some [tool "A" None; tool "B" None]).

Definition request_no_key : Request.t := request None None.

(** The first completion requests tool A with a payload that does not
    parse. *)
Definition malformed : Result Completion.t :=
  answer None (Some [call "c1" "A" "{"]) None.

Definition env_malformed : Env := env [malformed] looping echo.

(** Three completions of usage 10, 5, 15; the first two request tool A. *)
Definition env_three : Env :=
  env [looping; looping; answer (Some "done") None (usage 10 5 15)]
    looping echo.

(** The first completion requests tool A, the second tool B. *)
Definition env_A_then_B : Env :=
  env [answer None (Some [call "c1" "A" "{}"]) None;
       answer None (Some [call "c2" "B" "{}"]) None;
       answer (Some "done") None None]
    looping echo.

(** The model supplies [{y: 9}] to tool A. *)
Definition call_y9 : ToolCall.t := call "c1" "A" (member "y" "9").

End Stub.

(** ** Traces and runs *)

(** The tool executions of a trace that succeeded, and their outputs. *)
Definition succeeded (ev : Event) : bool :=
  match ev with
  | EvExecuteTool _ _ _ (Ok result) => ToolResponse.success result
  | _ => false
  end.

Definition successes (evs : list Event) : nat :=
  length (List.filter succeeded evs).

Definition outputs (evs : list Event) : list Json :=
  omap (λ ev, match ev with
              | EvExecuteTool _ _ _ (Ok result) =>
                  if ToolResponse.success result
                  then Some (ToolResponse.output result) else None
              | _ => None
              end) evs.

(** What one invocation adds to the token counts: the usage of the
    completion a completion invocation returned. *)
Definition zero_tokens : Tokens.t :=
  {| Tokens.prompt := 0; Tokens.completion := 0; Tokens.total := 0 |}.

Definition event_usage (ev : Event) : Tokens.t :=
  match ev with
  | EvCompletion _ (Ok currentResponse) => usage_tokens currentResponse
  | _ => zero_tokens
  end.

(** The sum of one component of the usage over the invocations of a trace. *)
Definition total_of (component : Tokens.t → N) (evs : list Event) : N :=
  foldr (λ ev n, (component (event_usage ev) + n)%N) 0%N evs.

Definition tokens_le (a b : Tokens.t) : Prop :=
  (Tokens.prompt a ≤ Tokens.prompt b)%N
  ∧ (Tokens.completion a ≤ Tokens.completion b)%N
  ∧ (Tokens.total a ≤ Tokens.total b)%N.

(** [after] is [before] plus the usage of every invocation of [evs],
    for each count whose exact sum is at most [MAX_EXACT]. *)
Definition accumulated (before after : Tokens.t) (evs : list Event) : Prop :=
  ((Tokens.prompt before + total_of Tokens.prompt evs ≤ MAX_EXACT)%N →
   Tokens.prompt after = (Tokens.prompt before + total_of Tokens.prompt evs)%N)
  ∧ ((Tokens.completion before + total_of Tokens.completion evs
      ≤ MAX_EXACT)%N →
     Tokens.completion after
     = (Tokens.completion before + total_of Tokens.completion evs)%N)
  ∧ ((Tokens.total before + total_of Tokens.total evs ≤ MAX_EXACT)%N →
     Tokens.total after
     = (Tokens.total before + total_of Tokens.total evs)%N).

(** The three counts are JavaScript numbers. *)
Definition doubles (t : Tokens.t) : Prop :=
  is_double (Tokens.prompt t)
  ∧ is_double (Tokens.completion t)
  ∧ is_double (Tokens.total t).

(** The payload of a completion invocation carries the tools [ts] and
    the tool choice [choice]. *)
Definition sends (ts : option (list FunctionTool.t)) (choice : option string)
    (ev : Event) : Prop :=
  match ev with
  | EvCompletion p _ => Payload.tools p = ts ∧ Payload.tool_choice p = choice
  | EvExecuteTool _ _ _ _ => True
  end.

(** The number of iterations of the loop that ran before a [return]. *)
Definition iterations (e : Exit) : nat :=
  match e with
  | ReturnImmediately _ _ _ => 0
  | ReturnAfterLoop _ iterationCount _ => iterationCount
  end.

(** The pure content of [map_toolCalls]. *)
Fixpoint parsed_calls (env : Env) (calls : list ToolCall.t)
    : option (list RequestedCall.t) :=
  match calls with
  | [] => Some []
  | toolCall :: rest =>
      args ← JSON_parse env (ToolCall.arguments toolCall);
      parsed ← parsed_calls env rest;
      Some ({| RequestedCall.name := ToolCall.name toolCall;
               RequestedCall.arguments := args |} :: parsed)
  end.

(** The runs of the loop as a relation: from [iterationCount] and [st] on
    the trace [h], the loop emits [evs] and ends in [r]. *)
Inductive loop_run (env : Env) (request : Request.t)
    : nat → LoopVars → list Event → list Event
      → Result (nat * LoopVars) → Prop :=
| run_cap i st h :
    MAX_ITERATIONS ≤ i →
    loop_run env request i st h [] (Ok (i, st))
| run_break i st h :
    i < MAX_ITERATIONS →
    default [] (toolCallsInResponse st) = [] →
    loop_run env request i st h [] (Ok (i, st))
| run_step i st h calls st' evs evs' r :
    i < MAX_ITERATIONS →
    toolCallsInResponse st = Some calls → calls ≠ [] →
    iteration env request calls st h = (Ok st', h ++ evs) →
    loop_run env request (S i) st' (h ++ evs) evs' r →
    loop_run env request i st h (evs ++ evs') r
| run_throw i st h calls e evs :
    i < MAX_ITERATIONS →
    toolCallsInResponse st = Some calls → calls ≠ [] →
    iteration env request calls st h = (Throw e, h ++ evs) →
    loop_run env request i st h evs (Throw e).

(** ** Conversations, texts and executions of a trace *)

(** Messages pushed by the loop come in pairs: the assistant entry of a
    call, then the tool entry that answers it, with the same id. *)
Inductive paired : list Message → Prop :=
| paired_nil : paired []
| paired_cons id name arguments content rest :
    paired rest →
    paired (AssistantToolCall id name arguments
            :: ToolMessage id content :: rest).

(** The payloads sent to the completion capability, in order. *)
Definition payloads (evs : list Event) : list Payload.t :=
  omap (λ ev, match ev with
              | EvCompletion p _ => Some p
              | EvExecuteTool _ _ _ _ => None
              end) evs.

(** A payload of the request: the first payload, with the conversation
    of the request followed by pairs pushed by the loop. *)
Definition continues (request : Request.t) (p : Payload.t) : Prop :=
  ∃ pushed,
    p = with_messages (payload request) (allMessages request ++ pushed)
    ∧ paired pushed.

(** The non-empty texts of the completions of a trace, in order. *)
Definition texts (evs : list Event) : list string :=
  omap (λ ev, match ev with
              | EvCompletion _ (Ok currentResponse) =>
                  if truthy (message_content currentResponse)
                  then Some (or_empty (message_content currentResponse))
                  else None
              | _ => None
              end) evs.

(** A completion invocation that threw. *)
Definition failed (ev : Event) : Prop :=
  match ev with
  | EvCompletion _ (Throw _) => True
  | _ => False
  end.

(** The number of tool calls the completions of a trace requested. *)
Definition requested (evs : list Event) : nat :=
  sum_list_with
    (λ ev, match ev with
           | EvCompletion _ (Ok currentResponse) =>
               length (default [] (message_tool_calls currentResponse))
           | _ => 0
           end) evs.

(** An execution of the trace runs a tool of the request, asks for the
    raw output, and passes at least the keys of the tool's defaults. *)
Definition runs_tool_of (request : Request.t) (ev : Event) : Prop :=
  match ev with
  | EvExecuteTool name args raw _ =>
      raw = true
      ∧ ∃ tool,
          tool ∈ default [] (Request.tools request)
          ∧ Tool.id tool = name
          ∧ dom (spread_opt (Tool.params tool)) ⊆ dom args
  | EvCompletion _ _ => True
  end.

(** The two entries the loop pushes for a call executed with [output]:
    the assistant entry that records the call and the tool entry that
    records its result, both with the id of the call. *)
Definition call_entries (env : Env) (toolCall : ToolCall.t) (output : Json)
    : list Message :=
  [AssistantToolCall (ToolCall.id toolCall) (ToolCall.name toolCall)
     (ToolCall.arguments toolCall);
   ToolMessage (ToolCall.id toolCall) (JSON_stringify env output)].

(** The entries of a list of executed calls with their outputs. *)
Definition entries (env : Env) (executed : list ToolCall.t)
    (outs : list Json) : list Message :=
  concat (zip_with (call_entries env) executed outs).

(** The tool calls the completions of a trace requested, in order. *)
Definition requested_calls (evs : list Event) : list ToolCall.t :=
  evs ≫= (λ ev, match ev with
                | EvCompletion _ (Ok currentResponse) =>
                    default [] (message_tool_calls currentResponse)
                | _ => []
                end).

(** The variables a [return] reads, for either [return]. *)
Definition exit_vars (request : Request.t) (first : Completion.t) (e : Exit)
    : LoopVars :=
  match e with
  | ReturnImmediately _ _ _ => initial_vars request first
  | ReturnAfterLoop _ _ st => st
  end.

(** More concrete inputs. *)
Module Scenario.

(** One completion with text and no tool call. *)
Definition env_done : Env :=
  Stub.env [Stub.answer (Some "done") None (Stub.usage 3 2 5)]
    Stub.looping Stub.echo.

(** The backend fails on its second invocation. *)
Definition env_backend_down : Env :=
  Stub.env [Stub.looping; Throw (Rejected "503")] Stub.looping Stub.echo.

(** Text, then a completion without text that requests a tool, then a
    last completion without text. *)
Definition env_text_then_silence : Env :=
  Stub.env [Stub.answer (Some "first") (Some [Stub.call "c1" "A" "{}"]) None;
            Stub.answer None (Some [Stub.call "c2" "A" "{}"]) None;
            Stub.answer (Some EmptyString) None None]
    Stub.looping Stub.echo.

(** A completion with prompt usage 2^53 that requests tool A, then one
    with prompt usage 1. *)
Definition env_huge : Env :=
  Stub.env [Stub.answer None (Some [Stub.call "c1" "A" "{}"])
              (Stub.usage 9007199254740992 0 9007199254740992);
            Stub.answer (Some "done") None (Stub.usage 1 0 1)]
    Stub.looping Stub.echo.

(** A request without tools and without model. *)
Definition request_plain : Request.t := Stub.request (Some "sk-test") None.

End Scenario.

(** ** Running the monad *)

(** A call that is skipped: same arrays, no invocation. *)
Ltac skipped acc evs :=
  exists acc, evs; simpl; rewrite ?app_nil_r;
  repeat split; auto; exists []; by rewrite app_nil_r.

Lemma bind_run {A B} (m : M A) (f : A → M B) (h : list Event) :
  (m ≫= f) h =
  match m h with
  | (Ok a, h') => f a h'
  | (Throw e, h') => (Throw e, h')
  end.
Proof. reflexivity. Qed.

Lemma ret_run {A} (a : A) (h : list Event) : mret (M := M) a h = (Ok a, h).
Proof. reflexivity. Qed.

(** The loop, unfolded once. *)
Lemma while_loop_eq env request iterationCount st h :
  while_loop env request iterationCount st h =
  if iterationCount <? MAX_ITERATIONS then
    match toolCallsInResponse st with
    | None | Some [] => (Ok (iterationCount, st), h)
    | Some (toolCall :: rest) =>
        match iteration env request (toolCall :: rest) st h with
        | (Ok st', h') => while_loop env request (S iterationCount) st' h'
        | (Throw e, h') => (Throw e, h')
        end
    end
  else (Ok (iterationCount, st), h).
Proof.
  funelim (while_loop env request iterationCount st h);
    repeat match goal with
    | E : (_ <? _) = _ |- _ => rewrite E
    | E : toolCallsInResponse _ = _ |- _ => rewrite E
    | E : iteration _ _ _ _ _ = _ |- _ => rewrite E
    end; reflexivity.
Qed.

(** ** JavaScript numbers *)

Section Doubles.

#[local] Open Scope N_scope.

(** The significand and the unit in the last place of a number between
    [MAX_EXACT] and [INFINITY]. *)
Lemma middle_facts x :
  MAX_EXACT < x → x < INFINITY →
  let ulp := 2 ^ (N.log2 x - 52) in
  let q := x / ulp in
  53 ≤ N.log2 x ∧ N.log2 x ≤ 1023 ∧ 2 ≤ ulp ∧ x = ulp * q + x mod ulp
  ∧ x mod ulp < ulp ∧ 2 ^ 52 ≤ q ∧ q < 2 ^ 53 ∧ 2 ^ 52 * ulp = 2 ^ N.log2 x.
Proof.
  intros Hsafe Hinf ulp q.
  assert (0 < x) as Hpos by (unfold MAX_EXACT in *; lia).
  destruct (N.log2_spec x Hpos) as [Hlow Hhigh].
  assert (53 ≤ N.log2 x) as H53.
  { apply N.log2_le_pow2; [done|]. unfold MAX_EXACT in *. lia. }
  assert (N.log2 x ≤ 1023) as H1023.
  { apply N.lt_succ_r, N.log2_lt_pow2; [done|]. exact Hinf. }
  assert (2 ^ 52 * ulp = 2 ^ N.log2 x) as Hulp.
  { unfold ulp. rewrite <- N.pow_add_r. f_equal. lia. }
  assert (ulp ≠ 0) as Hnz by (unfold ulp; apply N.pow_nonzero; lia).
  assert (2 ≤ ulp) as H2.
  { unfold ulp. change 2 with (2 ^ 1) at 1. apply N.pow_le_mono_r; lia. }
  pose proof (N.div_mod x ulp Hnz) as Hdm. fold q in Hdm.
  pose proof (N.mod_lt x ulp Hnz) as Hmod.
  repeat split; try done.
  - apply N.div_le_lower_bound; [done|]. rewrite N.mul_comm, Hulp. done.
  - apply N.Div0.div_lt_upper_bound.
    replace (ulp * 2 ^ 53) with (2 ^ N.succ (N.log2 x)); [done|].
    rewrite N.pow_succ_r', <- Hulp. change (2 ^ 53) with (2 * 2 ^ 52). lia.
Qed.

Lemma to_double_exact x : x ≤ MAX_EXACT → to_double x = x.
Proof. intros Hx. unfold to_double. by rewrite (proj2 (N.leb_le _ _) Hx). Qed.

(** Between MAX_EXACT and INFINITY the result is the unit in the last place
    times the significand or its successor. *)
Lemma to_double_middle x :
  MAX_EXACT < x → x < INFINITY →
  let ulp := 2 ^ (N.log2 x - 52) in
  to_double x = ulp * (x / ulp) ∨ to_double x = ulp * (x / ulp + 1).
Proof.
  intros Hsafe Hinf ulp. unfold to_double.
  rewrite (proj2 (N.leb_gt _ _) Hsafe), (proj2 (N.leb_gt _ _) Hinf).
  fold ulp. destruct (_ || _); auto.
Qed.

Lemma to_double_is_double x : is_double (to_double x).
Proof.
  destruct (N.le_gt_cases x MAX_EXACT) as [Hsafe|Hsafe].
  { left. by rewrite to_double_exact. }
  destruct (N.le_gt_cases INFINITY x) as [Hinf|Hinf].
  { right; left. unfold to_double.
    by rewrite (proj2 (N.leb_gt _ _) Hsafe), (proj2 (N.leb_le _ _) Hinf). }
  destruct (middle_facts x Hsafe Hinf)
    as (H53 & H1023 & H2 & Hdm & Hmod & Hq & Hq' & Hulp).
  set (ulp := 2 ^ (N.log2 x - 52)) in *. set (q := x / ulp) in *.
  assert (∀ k, 2 ^ 52 ≤ k → k ≤ 2 ^ 53 → is_double (ulp * k)) as Hshape.
  { intros k Hk Hk'. right.
    destruct (N.eq_dec k (2 ^ 53)) as [->|Hne].
    - assert (ulp * 2 ^ 53 = 2 ^ N.succ (N.log2 x)) as ->.
      { rewrite N.pow_succ_r', <- Hulp. change (2 ^ 53) with (2 * 2 ^ 52). lia. }
      destruct (N.eq_dec (N.log2 x) 1023) as [->|Hne]; [by left|right].
      split.
      + apply N.pow_lt_mono_r; lia.
      + rewrite N.log2_pow2 by lia. exists (2 ^ 52).
        rewrite <- N.pow_add_r. f_equal. lia.
    - right.
      assert (N.log2 (ulp * k) = N.log2 x) as Hlog.
      { apply N.log2_unique; [lia|].
        rewrite N.pow_succ_r', <- Hulp. split; nia. }
      split.
      + apply N.lt_le_trans with (2 ^ N.succ (N.log2 x)).
        * rewrite N.pow_succ_r', <- Hulp. nia.
        * apply N.pow_le_mono_r; lia.
      + rewrite Hlog. exists k. apply N.mul_comm. }
  destruct (to_double_middle x Hsafe Hinf) as [->| ->]; apply Hshape; fold ulp q; lia.
Qed.

Lemma to_double_ge a x : is_double a → a ≤ x → a ≤ to_double x.
Proof.
  intros Ha Hle.
  destruct (N.le_gt_cases x MAX_EXACT) as [Hsafe|Hsafe].
  { by rewrite to_double_exact. }
  destruct (N.le_gt_cases INFINITY x) as [Hinf|Hinf].
  { unfold to_double.
    rewrite (proj2 (N.leb_gt _ _) Hsafe), (proj2 (N.leb_le _ _) Hinf).
    destruct Ha as [Ha|[->|[Ha _]]]; [|done|lia].
    unfold MAX_EXACT, INFINITY in *. 
    apply N.le_trans with (2 ^ 53); [done|]. apply N.pow_le_mono_r; lia. }
  destruct (middle_facts x Hsafe Hinf)
    as (H53 & H1023 & H2 & Hdm & Hmod & Hq & Hq' & Hulp).
  set (ulp := 2 ^ (N.log2 x - 52)) in *. set (q := x / ulp) in *.
  assert (a ≤ ulp * q) as Hfloor.
  { destruct (N.le_gt_cases a MAX_EXACT) as [Hsmall|Hbig].
    { apply N.le_trans with (2 * 2 ^ 52); [exact Hsmall|].
      by apply N.mul_le_mono. }
    destruct Ha as [Ha|[->|[Ha [c Hc]]]];
      [by apply N.lt_nge in Hbig
      |by apply N.lt_nge in Hinf|].
    assert (0 < a) as Hpos
      by (apply N.le_lt_trans with MAX_EXACT; [apply N.le_0_l|done]).
    destruct (N.log2_spec a Hpos) as [Hlow Hhigh].
    pose proof (N.log2_le_mono a x Hle) as Hmono.
    destruct (N.eq_dec (N.log2 a) (N.log2 x)) as [Heq|Hne].
    - rewrite Heq in Hc. fold ulp in Hc. subst a.
      rewrite N.mul_comm. apply N.mul_le_mono_l.
      rewrite <- (N.div_mul c ulp) by lia. by apply N.Div0.div_le_mono.
    - apply N.le_trans with (2 ^ N.log2 x); [|rewrite <- Hulp; nia].
      apply N.lt_le_incl, N.lt_le_trans with (2 ^ N.succ (N.log2 a)); [done|].
      apply N.pow_le_mono_r; lia. }
  destruct (to_double_middle x Hsafe Hinf) as [->| ->]; fold ulp q; lia.
Qed.

Lemma js_add_exact a b : a + b ≤ MAX_EXACT → js_add a b = a + b.
Proof. apply to_double_exact. Qed.

(** Adding to a double never gives less. *)
Lemma js_add_ge a b : is_double a → a ≤ js_add a b.
Proof. intros Ha. apply to_double_ge; [done|]. apply N.le_add_r. Qed.

Lemma js_add_is_double a b : is_double (js_add a b).
Proof. apply to_double_is_double. Qed.

End Doubles.

(** ** Counting over traces *)

Lemma completions_app evs evs' :
  completions (evs ++ evs') = completions evs + completions evs'.
Proof. unfold completions. by rewrite List.filter_app, length_app. Qed.

Lemma executions_app evs evs' :
  executions (evs ++ evs') = executions evs + executions evs'.
Proof. unfold executions. by rewrite List.filter_app, length_app. Qed.

Lemma successes_app evs evs' :
  successes (evs ++ evs') = successes evs + successes evs'.
Proof. unfold successes. by rewrite List.filter_app, length_app. Qed.

Lemma outputs_app evs evs' : outputs (evs ++ evs') = outputs evs ++ outputs evs'.
Proof. apply omap_app. Qed.

Lemma total_of_app component evs evs' :
  total_of component (evs ++ evs')
  = (total_of component evs + total_of component evs')%N.
Proof.
  unfold total_of. induction evs as [|ev evs IH]; simpl; [done|].
  rewrite IH. lia.
Qed.

Lemma outputs_length evs : length (outputs evs) = successes evs.
Proof.
  unfold outputs, successes. induction evs as [|[p a|n args raw [r|e]] evs IH];
    simpl; try done.
  destruct (ToolResponse.success r); simpl; [f_equal|]; exact IH.
Qed.

(** ** The batch of tool calls *)

Lemma map_toolCalls_run env calls h :
  map_toolCalls env calls h =
  (match parsed_calls env calls with
   | Some toolCalls => Ok toolCalls
   | None => Throw SyntaxError
   end, h).
Proof.
  induction calls as [|toolCall rest IH]; simpl; [done|].
  destruct (JSON_parse env _); simpl; [|done].
  rewrite bind_run, IH. by destruct (parsed_calls env rest).
Qed.

(** What one call of the batch does: it never throws out of its
    [try], invokes the executor at most once and no completion, and
    pushes one output and two messages exactly when the executor
    succeeded. *)
Lemma tryToolCall_run env request toolCall acc h :
  ∃ acc' evs,
    tryToolCall env request toolCall acc h = (Ok acc', h ++ evs)
    ∧ completions evs = 0
    ∧ executions evs ≤ 1
    ∧ acc'.1 = acc.1 ++ outputs evs
    ∧ (∃ pushed, acc'.2 = acc.2 ++ pushed ∧ length pushed = 2 * successes evs).
Proof.
  unfold tryToolCall, try_catch, processToolCall.
  destruct (JSON_parse env _) as [toolArgs|]; [|skipped acc (@nil Event)].
  destruct (find_tool _ _) as [tool|]; [|skipped acc (@nil Event)].
  rewrite bind_run. unfold await_executeTool.
  destruct (executeTool env h _ _ true) as [result|e] eqn:Hanswer.
  - destruct (ToolResponse.success result) eqn:Hsuccess; simpl; rewrite ?ret_run.
    + eexists _, [_]; split; [reflexivity|].
      unfold successes; simpl; rewrite Hsuccess; simpl.
      repeat split; auto. eexists; split; [reflexivity|done].
    + eexists _, [_]; split; [reflexivity|].
      unfold successes; simpl; rewrite Hsuccess; simpl.
      rewrite app_nil_r. repeat split; auto. exists []. by rewrite app_nil_r.
  - simpl. rewrite ?ret_run. eexists _, [_]; split; [reflexivity|].
    simpl. rewrite app_nil_r. repeat split; auto. exists []. by rewrite app_nil_r.
Qed.

Lemma forToolCalls_run env request calls acc h :
  ∃ acc' evs,
    forToolCalls env request calls acc h = (Ok acc', h ++ evs)
    ∧ completions evs = 0
    ∧ executions evs ≤ length calls
    ∧ acc'.1 = acc.1 ++ outputs evs
    ∧ (∃ pushed, acc'.2 = acc.2 ++ pushed ∧ length pushed = 2 * successes evs).
Proof.
  revert acc h. induction calls as [|toolCall rest IH]; intros acc h; simpl.
  - rewrite ret_run. skipped acc (@nil Event).
  - rewrite bind_run.
    destruct (tryToolCall_run env request toolCall acc h)
      as (acc1 & evs1 & -> & Hc1 & He1 & Hr1 & pushed1 & Hm1 & Hl1).
    destruct (IH acc1 (h ++ evs1))
      as (acc2 & evs2 & -> & Hc2 & He2 & Hr2 & pushed2 & Hm2 & Hl2).
    exists acc2, (evs1 ++ evs2). rewrite app_assoc. split; [done|].
    rewrite completions_app, executions_app, outputs_app, successes_app.
    repeat split; [lia|lia|by rewrite Hr2, Hr1, app_assoc|].
    exists (pushed1 ++ pushed2). rewrite Hm2, Hm1, app_assoc, length_app.
    split; [done|lia].
Qed.

(** A trace without completion invocations: it adds no usage and sends
    no payload. *)
Lemma no_completions evs :
  completions evs = 0 → Forall (λ ev, is_completion ev = false) evs.
Proof.
  unfold completions. induction evs as [|ev evs IH]; simpl; [constructor|].
  destruct (is_completion ev) eqn:E; simpl; [lia|]. intros. constructor; auto.
Qed.

Lemma accumulated_refl t evs : completions evs = 0 → accumulated t t evs.
Proof.
  intros Hnone%no_completions.
  assert (∀ f, f zero_tokens = 0%N → total_of f evs = 0%N) as Hzero.
  { intros f Hf. induction Hnone as [|[p a|n args raw a] evs E _ IH];
      simpl in *; [done|done|]. rewrite Hf, IH. done. }
  unfold accumulated. rewrite !Hzero by done.
  repeat split; intros _; lia.
Qed.

Lemma accumulated_app a b c evs evs' :
  accumulated a b evs → accumulated b c evs' → accumulated a c (evs ++ evs').
Proof.
  unfold accumulated. rewrite !total_of_app.
  intros (Hp & Hc & Ht) (Hp' & Hc' & Ht').
  repeat split; intros Hle;
    [rewrite Hp', Hp|rewrite Hc', Hc|rewrite Ht', Ht]; lia.
Qed.

Lemma sends_no_completions ts choice evs :
  completions evs = 0 → Forall (sends ts choice) evs.
Proof.
  intros Hnone%no_completions. eapply Forall_impl; [exact Hnone|].
  by intros [p a|n args raw a].
Qed.

(** ** One iteration *)

Lemma next_vars_tokens st acc currentResponse p :
  accumulated (tokens st) (tokens (next_vars st acc currentResponse))
    [EvCompletion p (Ok currentResponse)].
Proof.
  unfold accumulated, next_vars; simpl.
  destruct (Completion.usage currentResponse) eqn:Husage; simpl.
  - repeat split; intros Hle; rewrite N.add_0_r in *; by apply js_add_exact.
  - unfold usage_tokens. rewrite Husage. simpl. repeat split; intros _; lia.
Qed.

Lemma iteration_run env request calls st h :
  ∃ acc evs,
    forToolCalls env request calls (toolResults st, currentMessages st) h
    = (Ok acc, h ++ evs)
    ∧ let nextPayload := with_messages (payload request) acc.2 in
      let answer := create env (h ++ evs) nextPayload in
      iteration env request calls st h =
      (match answer with
       | Ok currentResponse => Ok (next_vars st acc currentResponse)
       | Throw e => Throw e
       end, h ++ evs ++ [EvCompletion nextPayload answer]).
Proof.
  destruct (forToolCalls_run env request calls
              (toolResults st, currentMessages st) h) as (acc & evs & Hfor & _).
  exists acc, evs. split; [done|]. intros nextPayload answer.
  unfold iteration. rewrite bind_run, Hfor, bind_run.
  unfold await_create. fold nextPayload answer. rewrite app_assoc.
  by destruct answer.
Qed.

(** What one iteration adds to the trace and to the variables. *)
Lemma iteration_trace env request calls st h r h' :
  iteration env request calls st h = (r, h') →
  ∃ evs,
    h' = h ++ evs
    ∧ completions evs = 1
    ∧ executions evs ≤ length calls
    ∧ Forall (sends (Payload.tools (payload request))
                (Payload.tool_choice (payload request))) evs
    ∧ ∀ st', r = Ok st' →
        accumulated (tokens st) (tokens st') evs
        ∧ toolResults st' = toolResults st ++ outputs evs
        ∧ ∃ pushed, currentMessages st' = currentMessages st ++ pushed
                    ∧ length pushed = 2 * successes evs.
Proof.
  destruct (forToolCalls_run env request calls
              (toolResults st, currentMessages st) h)
    as (acc & evs & Hfor & Hnone & Hexec & Hresults & pushed & Hpushed & Hlen).
  destruct (iteration_run env request calls st h) as (acc0 & evs0 & Hfor0 & Hit).
  rewrite Hfor in Hfor0. injection Hfor0 as <- <-%app_inv_head.
  simpl in Hit. rewrite Hit. intros [= <- <-].
  eexists; split; [reflexivity|].
  rewrite completions_app, executions_app.
  split; [unfold completions at 2; simpl; lia|].
  split; [unfold executions at 2; simpl; lia|]. split.
  - apply Forall_app; split; [by apply sends_no_completions|].
    by repeat constructor.
  - intros st'. destruct (create env _ _) as [currentResponse|e]; [|done].
    intros [= <-]. split; [|split].
    + eapply accumulated_app; [by apply accumulated_refl|].
      apply next_vars_tokens.
    + simpl in *. rewrite outputs_app. simpl. by rewrite app_nil_r.
    + exists pushed. simpl in *. split; [done|].
      rewrite successes_app. change (successes [_]) with 0. lia.
Qed.

(** ** The loop *)

(** The loop always ends, in a run of the relation. *)
Lemma while_loop_run env request n : ∀ i st h,
  MAX_ITERATIONS - i ≤ n →
  ∃ r evs, while_loop env request i st h = (r, h ++ evs)
           ∧ loop_run env request i st h evs r.
Proof.
  induction n as [|n IH]; intros i st h Hn; rewrite while_loop_eq.
  - destruct (Nat.ltb_spec i MAX_ITERATIONS) as [Hlt|Hge]; [lia|].
    exists (Ok (i, st)), []. rewrite app_nil_r. split; [done|by constructor].
  - destruct (Nat.ltb_spec i MAX_ITERATIONS) as [Hlt|Hge].
    2: { exists (Ok (i, st)), []. rewrite app_nil_r. split; [done|by constructor]. }
    destruct (toolCallsInResponse st) as [[|toolCall rest]|] eqn:Hcalls.
    1, 3: exists (Ok (i, st)), []; rewrite app_nil_r; split; [done|];
          apply run_break; [done|by rewrite Hcalls].
    destruct (iteration env request (toolCall :: rest) st h) as [[st'|e] h'] eqn:Hit;
      destruct (iteration_trace _ _ _ _ _ _ _ Hit) as (evs & -> & _).
    + destruct (IH (S i) st' (h ++ evs)) as (r & evs' & -> & Hrun); [lia|].
      exists r, (evs ++ evs'). rewrite app_assoc. split; [done|].
      by eapply run_step.
    + exists (Throw e), evs. split; [done|]. by eapply run_throw.
Qed.

(** The counter and the completion invocations of a run. *)
Lemma loop_run_count env request i st h evs r :
  loop_run env request i st h evs r →
  i ≤ MAX_ITERATIONS →
  match r with
  | Ok (i', st') =>
      i ≤ i' ≤ MAX_ITERATIONS ∧ completions evs = i' - i
      ∧ (i' = MAX_ITERATIONS ∨ default [] (toolCallsInResponse st') = [])
  | Throw _ => 1 ≤ completions evs ≤ MAX_ITERATIONS - i
  end.
Proof.
  induction 1 as [i st h Hge|i st h Hlt Hnone
                 |i st h calls st' evs evs' r Hlt Hcalls Hne Hit _ IH
                 |i st h calls e evs Hlt Hcalls Hne Hit]; intros Hi.
  - split; [lia|]. split; [change (completions []) with 0; lia|]. left; lia.
  - split; [lia|]. split; [change (completions []) with 0; lia|]. by right.
  - apply iteration_trace in Hit as (evs0 & ->%app_inv_head & Hone & _).
    rewrite completions_app, Hone. specialize (IH Hlt).
    destruct r as [[i' st'']|e]; [|lia].
    destruct IH as (? & ? & ?). repeat split; [lia..|done].
  - apply iteration_trace in Hit as (evs0 & ->%app_inv_head & Hone & _). lia.
Qed.

(** The token counts, the tool results and the messages of a run that
    ends normally. *)
Lemma loop_run_vars env request i st h evs i' st' :
  loop_run env request i st h evs (Ok (i', st')) →
  accumulated (tokens st) (tokens st') evs
  ∧ toolResults st' = toolResults st ++ outputs evs
  ∧ ∃ pushed, currentMessages st' = currentMessages st ++ pushed
              ∧ length pushed = 2 * successes evs.
Proof.
  remember (Ok (i', st')) as r eqn:Hr. intros Hrun. revert Hr.
  induction Hrun as [i st h Hge|i st h Hlt Hnone
                    |i st h calls st1 evs evs' r Hlt Hcalls Hne Hit _ IH
                    |i st h calls e evs Hlt Hcalls Hne Hit]; intros Hr.
  1, 2: injection Hr as -> ->; split; [by apply accumulated_refl|];
        rewrite app_nil_r; split; [done|]; exists []; by rewrite app_nil_r.
  - apply iteration_trace in Hit as (evs0 & ->%app_inv_head & _ & _ & _ & Hvars).
    destruct (Hvars st1 eq_refl) as (Hacc & Hres & pushed & Hmsgs & Hlen).
    destruct (IH Hr) as (Hacc' & Hres' & pushed' & Hmsgs' & Hlen').
    split; [by eapply accumulated_app|].
    rewrite outputs_app, successes_app.
    split; [by rewrite Hres', Hres, app_assoc|].
    exists (pushed ++ pushed'). rewrite Hmsgs', Hmsgs, app_assoc, length_app.
    split; [done|lia].
  - done.
Qed.

(** Every payload of a run carries the tools of the first payload. *)
Lemma loop_run_sends env request i st h evs r :
  loop_run env request i st h evs r →
  Forall (sends (Payload.tools (payload request))
            (Payload.tool_choice (payload request))) evs.
Proof.
  induction 1 as [i st h Hge|i st h Hlt Hnone
                 |i st h calls st' evs evs' r Hlt Hcalls Hne Hit _ IH
                 |i st h calls e evs Hlt Hcalls Hne Hit]; try by constructor.
  - apply iteration_trace in Hit as (evs0 & ->%app_inv_head & _ & _ & Hsends & _).
    by apply Forall_app.
  - by apply iteration_trace in Hit as (evs0 & ->%app_inv_head & _ & _ & Hsends & _).
Qed.

(** ** The request *)

Lemma parsed_calls_length env calls toolCalls :
  parsed_calls env calls = Some toolCalls → length toolCalls = length calls.
Proof.
  revert toolCalls. induction calls as [|toolCall rest IH]; simpl; intros toolCalls.
  - by intros [= <-].
  - destruct (JSON_parse env _); simpl; [|done].
    destruct (parsed_calls env rest); simpl; [|done].
    intros [= <-]. simpl. by rewrite IH.
Qed.

(** The paths through the body of a request that has its credential:
    the first completion, then the parse of its tool calls, then either
    the immediate [return] or the loop and the [return] after it. *)
Lemma executeRequest_body_run mode env request h :
  truthy (Request.apiKey request) = true →
  let answer := create env h (payload request) in
  let h1 := h ++ [EvCompletion (payload request) answer] in
  match answer with
  | Throw e => executeRequest_body mode env request h = (Throw e, h1)
  | Ok currentResponse =>
      match
        parsed_calls env (default [] (message_tool_calls currentResponse))
      with
      | None => executeRequest_body mode env request h = (Throw SyntaxError, h1)
      | Some toolCalls =>
          if is_parameters_only mode || bool_decide (length toolCalls = 0)
          then
            executeRequest_body mode env request h =
            (Ok (ReturnImmediately (or_empty (message_content currentResponse))
                   (usage_tokens currentResponse) toolCalls), h1)
          else
            ∃ r evs,
              loop_run env request 0 (initial_vars request currentResponse)
                h1 evs r
              ∧ executeRequest_body mode env request h =
                (match r with
                 | Ok (iterationCount, st) =>
                     Ok (ReturnAfterLoop toolCalls iterationCount st)
                 | Throw e => Throw e
                 end, h1 ++ evs)
      end
  end.
Proof.
  intros Hkey answer h1.
  remember (executeRequest_body mode env request h) as body eqn:Hbody.
  unfold executeRequest_body in Hbody. rewrite Hkey in Hbody.
  change (negb true) with false in Hbody. cbv iota in Hbody.
  rewrite bind_run in Hbody. unfold await_create in Hbody.
  fold answer h1 in Hbody.
  destruct answer as [currentResponse|e]; [|done].
  rewrite bind_run in Hbody.
  assert (match message_tool_calls currentResponse with
          | Some calls => map_toolCalls env calls
          | None => mret []
          end h1
          = (match parsed_calls env
                     (default [] (message_tool_calls currentResponse)) with
             | Some toolCalls => Ok toolCalls
             | None => Throw SyntaxError
             end, h1)) as Hparse.
  { destruct (message_tool_calls currentResponse); simpl;
      [apply map_toolCalls_run|done]. }
  rewrite Hparse in Hbody. clear Hparse.
  destruct (parsed_calls env _) as [toolCalls|]; [|done].
  destruct (is_parameters_only mode || bool_decide (length toolCalls = 0));
    [done|].
  rewrite bind_run in Hbody.
  destruct (while_loop_run env request MAX_ITERATIONS 0
              (initial_vars request currentResponse) h1)
    as (r & evs & Hloop & Hrun); [lia|].
  rewrite Hloop in Hbody.
  exists r, evs. split; [done|]. by destruct r as [[iterationCount st]|e].
Qed.

Lemma executeRequest_in_run mode env request h :
  executeRequest_in mode env request h =
  match executeRequest_body mode env request h with
  | (Ok e, h') => (Ok (response request e), h')
  | (Throw e, h') => (Throw e, h')
  end.
Proof. reflexivity. Qed.

(** In 'parameters-only' mode the body is the first completion and the
    parse of its tool calls. *)
Lemma parameters_only_run env request h :
  truthy (Request.apiKey request) = true →
  ∃ r,
    executeRequest_body parameters_only env request h =
    (r, h ++ [EvCompletion (payload request) (create env h (payload request))])
    ∧ ∀ e, r = Ok e → ∃ content tokens toolCalls,
        e = ReturnImmediately content tokens toolCalls.
Proof.
  intros Hkey.
  pose proof (executeRequest_body_run parameters_only env request h Hkey) as Hrun.
  simpl in Hrun. destruct (create env h (payload request)) as [currentResponse|e].
  - destruct (parsed_calls env _) as [toolCalls|].
    + eexists; split; [exact Hrun|]. intros e [= <-]. eauto.
    + eexists; split; [exact Hrun|]. done.
  - eexists; split; [exact Hrun|]. done.
Qed.

(** The trace and the exit of a request that has its credential. *)
Lemma executeRequest_body_trace mode env request h :
  truthy (Request.apiKey request) = true →
  let answer := create env h (payload request) in
  let h1 := h ++ [EvCompletion (payload request) answer] in
  ∃ r evs,
    executeRequest_body mode env request h = (r, h1 ++ evs)
    ∧ Forall (sends (Payload.tools (payload request))
                (Payload.tool_choice (payload request))) evs
    ∧ completions evs ≤ MAX_ITERATIONS
    ∧ ∀ e, r = Ok e →
        ∃ first toolCalls,
          answer = Ok first
          ∧ parsed_calls env (default [] (message_tool_calls first))
            = Some toolCalls
          ∧ match e with
            | ReturnImmediately content tokens toolCalls' =>
                evs = []
                ∧ content = or_empty (message_content first)
                ∧ tokens = usage_tokens first
                ∧ toolCalls' = toolCalls
            | ReturnAfterLoop toolCalls' iterationCount st =>
                mode = sync
                ∧ toolCalls' = toolCalls
                ∧ loop_run env request 0 (initial_vars request first) h1 evs
                    (Ok (iterationCount, st))
            end.
Proof.
  intros Hkey answer h1.
  pose proof (executeRequest_body_run mode env request h Hkey) as Hrun.
  simpl in Hrun. fold answer h1 in Hrun.
  destruct answer as [first|e] eqn:Hanswer.
  2: { exists (Throw e), []. rewrite app_nil_r. split; [done|].
       split; [constructor|]. split; [change (completions []) with 0; lia|done]. }
  destruct (parsed_calls env _) as [toolCalls|] eqn:Hparsed.
  2: { exists (Throw SyntaxError), []. rewrite app_nil_r. split; [done|].
       split; [constructor|]. split; [change (completions []) with 0; lia|done]. }
  destruct (is_parameters_only mode || bool_decide (length toolCalls = 0))
    eqn:Hmode.
  - eexists _, []. rewrite app_nil_r. split; [exact Hrun|].
    split; [constructor|]. split; [change (completions []) with 0; lia|].
    intros e [= <-]. by exists first, toolCalls.
  - destruct Hrun as (r & evs & Hloop & Hrun).
    eexists _, evs. split; [exact Hrun|].
    split; [by eapply loop_run_sends|].
    pose proof (loop_run_count _ _ _ _ _ _ _ Hloop ltac:(lia)) as Hcount.
    split; [destruct r as [[i st]|e]; lia|].
    intros e He. exists first, toolCalls. split; [done|]. split; [done|].
    destruct r as [[i st]|e']; [|done]. injection He as <-.
    split; [by destruct mode|]. done.
Qed.

(** The request as a whole extends the trace. *)
Lemma executeRequest_in_trace mode env request h :
  ∃ r evs,
    executeRequest_in mode env request h = (r, h ++ evs)
    ∧ Forall (sends (Payload.tools (payload request))
                (Payload.tool_choice (payload request))) evs.
Proof.
  rewrite executeRequest_in_run.
  destruct (truthy (Request.apiKey request)) eqn:Hkey.
  - destruct (executeRequest_body_trace mode env request h Hkey)
      as (r & evs & -> & Hsends & _).
    rewrite <- app_assoc.
    destruct r; eexists _, _; (split; [reflexivity|]);
      (constructor; [by split|done]).
  - unfold executeRequest_body. rewrite Hkey. simpl.
    eexists _, []. rewrite app_nil_r. split; [reflexivity|constructor].
Qed.

(** ** The steps of the loop, in full *)

Lemma paired_app pushed pushed' :
  paired pushed → paired pushed' → paired (pushed ++ pushed').
Proof. induction 1; simpl; [done|]. intros. constructor. auto. Qed.

Lemma paired_length pushed : paired pushed → Nat.Even (length pushed).
Proof.
  induction 1 as [|id name arguments content rest _ [k Hk]]; [by exists 0|].
  exists (S k). simpl. lia.
Qed.

(** What one call of the batch adds: at most one execution, of a tool of
    the request, and either nothing or one output and one pair. *)
Lemma tryToolCall_step env request toolCall acc h :
  ∃ evs pushed,
    tryToolCall env request toolCall acc h
    = (Ok (acc.1 ++ outputs evs, acc.2 ++ pushed), h ++ evs)
    ∧ paired pushed
    ∧ length pushed = 2 * successes evs
    ∧ length evs ≤ 1
    ∧ Forall (runs_tool_of request) evs
    ∧ Forall (λ ev, is_completion ev = false) evs.
Proof.
  unfold tryToolCall, try_catch, processToolCall. destruct acc as [results messages].
  destruct (JSON_parse env _) as [toolArgs|].
  2: { exists [], []. simpl. rewrite !app_nil_r. repeat split; auto; constructor. }
  destruct (find_tool _ _) as [tool|] eqn:Hfind.
  2: { exists [], []. simpl. rewrite !app_nil_r. repeat split; auto; constructor. }
  assert (runs_tool_of request
            (EvExecuteTool (ToolCall.name toolCall)
               (spread toolArgs ∪ spread_opt (Tool.params tool)) true
               (executeTool env h (ToolCall.name toolCall)
                  (spread toolArgs ∪ spread_opt (Tool.params tool)) true)))
    as Hruns.
  { split; [done|]. exists tool. unfold find_tool in Hfind.
    apply List.find_some in Hfind as [Hin Hid%String.eqb_eq].
    split; [by apply list_elem_of_In|]. split; [done|].
    rewrite dom_union. set_solver. }
  rewrite bind_run. unfold await_executeTool.
  destruct (executeTool env h _ _ true) as [result|e] eqn:Hanswer.
  - destruct (ToolResponse.success result) eqn:Hsuccess; simpl.
    + eexists [EvExecuteTool _ _ _ (Ok result)], [_; _].
      unfold successes, outputs; simpl. rewrite Hsuccess. simpl.
      split; [reflexivity|]. repeat split; auto; repeat constructor; done.
    + eexists [EvExecuteTool _ _ _ (Ok result)], [].
      unfold successes, outputs; simpl. rewrite Hsuccess. simpl.
      rewrite !app_nil_r.
      split; [reflexivity|]. repeat split; auto; repeat constructor; done.
  - simpl. eexists [EvExecuteTool _ _ _ (Throw e)], []. simpl.
    rewrite !app_nil_r.
    split; [reflexivity|]. repeat split; auto; repeat constructor; done.
Qed.

Lemma forToolCalls_step env request calls acc h :
  ∃ evs pushed,
    forToolCalls env request calls acc h
    = (Ok (acc.1 ++ outputs evs, acc.2 ++ pushed), h ++ evs)
    ∧ paired pushed
    ∧ length pushed = 2 * successes evs
    ∧ length evs ≤ length calls
    ∧ Forall (runs_tool_of request) evs
    ∧ Forall (λ ev, is_completion ev = false) evs.
Proof.
  revert acc h. induction calls as [|toolCall rest IH]; intros acc h; simpl.
  - exists [], []. rewrite ret_run. simpl. rewrite !app_nil_r.
    destruct acc. repeat split; auto; constructor.
  - rewrite bind_run.
    destruct (tryToolCall_step env request toolCall acc h)
      as (evs1 & pushed1 & -> & Hp1 & Hl1 & Hn1 & Hr1 & Hc1).
    destruct (IH (acc.1 ++ outputs evs1, acc.2 ++ pushed1) (h ++ evs1))
      as (evs2 & pushed2 & -> & Hp2 & Hl2 & Hn2 & Hr2 & Hc2).
    exists (evs1 ++ evs2), (pushed1 ++ pushed2). simpl.
    rewrite outputs_app, successes_app, !length_app, !app_assoc.
    split; [done|]. split; [by apply paired_app|].
    split; [lia|]. split; [lia|]. split; by apply Forall_app.
Qed.

(** One iteration: a batch of executions, then one completion invocation
    on the first payload with the messages grown by the pairs of the
    batch; the iteration throws exactly when that invocation does. *)
Lemma iteration_step env request calls st h :
  ∃ batch pushed,
    let messages := currentMessages st ++ pushed in
    let nextPayload := with_messages (payload request) messages in
    let answer := create env (h ++ batch) nextPayload in
    iteration env request calls st h =
    (match answer with
     | Ok currentResponse =>
         Ok (next_vars st (toolResults st ++ outputs batch, messages)
               currentResponse)
     | Throw e => Throw e
     end, h ++ batch ++ [EvCompletion nextPayload answer])
    ∧ paired pushed
    ∧ length pushed = 2 * successes batch
    ∧ length batch ≤ length calls
    ∧ Forall (runs_tool_of request) batch
    ∧ Forall (λ ev, is_completion ev = false) batch.
Proof.
  destruct (forToolCalls_step env request calls
              (toolResults st, currentMessages st) h)
    as (batch & pushed & Hfor & Hfacts).
  exists batch, pushed. simpl. split; [|done].
  unfold iteration. rewrite bind_run, Hfor, bind_run. simpl.
  unfold await_create. rewrite app_assoc. by destruct (create env _ _).
Qed.

(** ** Invariants of a request *)

Section Invariant.

Variables (env : Env) (request : Request.t).

(** [I] relates the variables of the loop to the trace of the request so
    far; [J] is what is left of it when an iteration throws. *)
Variable I : LoopVars → list Event → Prop.
Variable J : list Event → Exn → Prop.

Hypothesis iteration_keeps : ∀ st h calls st' evs0 evs,
  I st evs0 → toolCallsInResponse st = Some calls →
  iteration env request calls st h = (Ok st', h ++ evs) →
  I st' (evs0 ++ evs).

Hypothesis iteration_throws : ∀ st h calls e evs0 evs,
  I st evs0 → toolCallsInResponse st = Some calls →
  iteration env request calls st h = (Throw e, h ++ evs) →
  J (evs0 ++ evs) e.

Lemma loop_run_invariant i st h evs r :
  loop_run env request i st h evs r →
  ∀ evs0, I st evs0 →
  match r with
  | Ok (_, st') => I st' (evs0 ++ evs)
  | Throw e => J (evs0 ++ evs) e
  end.
Proof.
  induction 1 as [i st h Hge|i st h Hlt Hnone
                 |i st h calls st' evs evs' r Hlt Hcalls Hne Hit _ IH
                 |i st h calls e evs Hlt Hcalls Hne Hit]; intros evs0 HI.
  - by rewrite app_nil_r.
  - by rewrite app_nil_r.
  - rewrite app_assoc. apply IH. by eapply iteration_keeps.
  - by eapply iteration_throws.
Qed.

(** A request that has its credential: how it ends, and the invariant
    at the end. *)
Lemma request_invariant mode h :
  truthy (Request.apiKey request) = true →
  (∀ first,
     create env h (payload request) = Ok first →
     I (initial_vars request first)
       [EvCompletion (payload request) (Ok first)]) →
  ∃ r evs,
    executeRequest_body mode env request h = (r, h ++ evs)
    ∧ match r with
      | Ok e =>
          ∃ first,
            create env h (payload request) = Ok first
            ∧ I (exit_vars request first e) evs
            ∧ Response.content (response request e)
              = content (exit_vars request first e)
            ∧ Response.toolResults (response request e)
              = or_undefined (toolResults (exit_vars request first e))
            ∧ (is_parameters_only mode = true ∧ iterations e = 0
               ∨ iterations e = MAX_ITERATIONS
               ∨ default [] (toolCallsInResponse (exit_vars request first e))
                 = [])
      | Throw e =>
          evs = [EvCompletion (payload request) (Throw e)]
          ∨ (∃ first,
               evs = [EvCompletion (payload request) (Ok first)]
               ∧ parsed_calls env (default [] (message_tool_calls first)) = None
               ∧ e = SyntaxError)
          ∨ J evs e
      end.
Proof.
  intros Hkey Hfirst.
  pose proof (executeRequest_body_run mode env request h Hkey) as Hrun.
  simpl in Hrun.
  destruct (create env h (payload request)) as [first|e] eqn:Hanswer.
  2: { eexists _, [_]. split; [exact Hrun|]. by left. }
  specialize (Hfirst first eq_refl).
  destruct (parsed_calls env _) as [toolCalls|] eqn:Hparsed.
  2: { eexists _, [_]. split; [exact Hrun|]. right; left. by exists first. }
  destruct (is_parameters_only mode) eqn:Hmode; simpl in Hrun.
  { eexists _, [_]. split; [exact Hrun|]. exists first. simpl. auto 10. }
  destruct (bool_decide (length toolCalls = 0)) eqn:Hnone.
  { eexists _, [_]. split; [exact Hrun|]. exists first. simpl.
    apply bool_decide_eq_true in Hnone. apply parsed_calls_length in Hparsed.
    repeat split; auto. right; right. apply length_zero_iff_nil. congruence. }
  destruct Hrun as (r & evs & Hloop & Hrun).
  exists (match r with
          | Ok (iterationCount, st) =>
              Ok (ReturnAfterLoop toolCalls iterationCount st)
          | Throw e => Throw e
          end), ([EvCompletion (payload request) (Ok first)] ++ evs).
  rewrite app_assoc. split; [done|].
  pose proof (loop_run_invariant _ _ _ _ _ Hloop _ Hfirst) as Hinv.
  pose proof (loop_run_count _ _ _ _ _ _ _ Hloop ltac:(lia)) as Hcount.
  destruct r as [[i st]|e]; [|by right; right].
  exists first. simpl. destruct Hcount as (_ & _ & [->|Hstop]); auto 10.
Qed.

End Invariant.

(** ** Measures of a batch and of an iteration *)

Lemma payloads_app evs evs' : payloads (evs ++ evs') = payloads evs ++ payloads evs'.
Proof. apply omap_app. Qed.

Lemma texts_app evs evs' : texts (evs ++ evs') = texts evs ++ texts evs'.
Proof. apply omap_app. Qed.

Lemma requested_app evs evs' : requested (evs ++ evs') = requested evs + requested evs'.
Proof. apply sum_list_with_app. Qed.

(** A batch is made of executions only. *)
Lemma batch_measures batch :
  Forall (λ ev, is_completion ev = false) batch →
  payloads batch = [] ∧ texts batch = [] ∧ requested batch = 0
  ∧ executions batch = length batch ∧ Forall (λ ev, ¬ failed ev) batch.
Proof.
  induction 1 as [|[p a|name args raw a] batch Hev _ (Hp & Ht & Hr & He & Hf)];
    [by repeat split| done |].
  unfold payloads, texts, requested, executions in *. simpl.
  split; [exact Hp|]. split; [exact Ht|]. split; [exact Hr|].
  split; [by f_equal|]. constructor; [by intros []|exact Hf].
Qed.

(** The latest text after a batch and a completion. *)
Lemma latest_text_step evs batch p currentResponse text :
  texts batch = [] →
  text = default EmptyString (last (texts evs)) →
  (if truthy (message_content currentResponse)
   then or_empty (message_content currentResponse) else text)
  = default EmptyString
      (last (texts (evs ++ batch ++ [EvCompletion p (Ok currentResponse)]))).
Proof.
  intros Hbatch ->. rewrite !texts_app, Hbatch. unfold texts at 2. simpl.
  destruct (truthy (message_content currentResponse)); simpl.
  - by rewrite last_snoc.
  - by rewrite app_nil_r.
Qed.

(** The events of an iteration and its outcome, from its trace. *)
Lemma iteration_events env request calls st h r evs :
  iteration env request calls st h = (r, h ++ evs) →
  ∃ batch pushed answer,
    evs = batch
          ++ [EvCompletion
                (with_messages (payload request) (currentMessages st ++ pushed))
                answer]
    ∧ r = match answer with
          | Ok currentResponse =>
              Ok (next_vars st
                    (toolResults st ++ outputs batch,
                     currentMessages st ++ pushed) currentResponse)
          | Throw e => Throw e
          end
    ∧ paired pushed
    ∧ length pushed = 2 * successes batch
    ∧ length batch ≤ length calls
    ∧ Forall (runs_tool_of request) batch
    ∧ Forall (λ ev, is_completion ev = false) batch.
Proof.
  destruct (iteration_step env request calls st h)
    as (batch & pushed & Hit & Hfacts).
  simpl in Hit. rewrite Hit. intros [= <- <-%app_inv_head].
  by eexists batch, pushed, _.
Qed.

(** Without a credential nothing is invoked, in either mode. *)
Lemma executeRequest_body_no_key mode env request h :
  truthy (Request.apiKey request) = false →
  executeRequest_body mode env request h
  = (Throw (Error "API key is required for OpenAI"), h).
Proof. intros Hkey. unfold executeRequest_body. by rewrite Hkey. Qed.

(** Splits the trace of an iteration into its batch and its completion,
    and its outcome by the answer of the completion. *)
Ltac iteration_inv Hit :=
  let batch := fresh "batch" in
  let pushed := fresh "pushed" in
  let answer := fresh "answer" in
  let Hr := fresh "Hr" in
  let Hpaired := fresh "Hpaired" in
  let Hlen := fresh "Hlen" in
  let Hmost := fresh "Hmost" in
  let Hruns := fresh "Hruns" in
  let Hbatch := fresh "Hbatch" in
  apply iteration_events in Hit
    as (batch & pushed & answer & -> & Hr & Hpaired & Hlen & Hmost & Hruns
        & Hbatch);
  destruct answer; try discriminate Hr; injection Hr as Hr; subst;
  destruct (batch_measures _ Hbatch)
    as (?Hpayloads & ?Htexts & ?Hrequested & ?Hexecutions & ?Hfailed).

(** From the body to the request. *)
Lemma executeRequest_in_body mode env request h r evs :
  executeRequest_body mode env request h = (r, h ++ evs) →
  executeRequest_in mode env request h =
  (match r with
   | Ok e => Ok (response request e)
   | Throw e => Throw e
   end, h ++ evs).
Proof. intros Hbody. rewrite executeRequest_in_run, Hbody. by destruct r. Qed.

Lemma or_empty_falsy o : truthy o = false → or_empty o = EmptyString.
Proof. by destruct o as [[|c s]|]. Qed.

(** ** Properties of the provider *)

(** *** Malformed tool arguments *)

(** Inside the loop a call whose arguments do not parse is dropped: the
    [catch] leaves both arrays as they were and nothing is invoked. *)
Lemma malformed_call_dropped_in_loop env request toolCall acc h :
  JSON_parse env (ToolCall.arguments toolCall) = None →
  tryToolCall env request toolCall acc h = (Ok acc, h).
Proof.
  intros Hparse. unfold tryToolCall, try_catch, processToolCall.
  by rewrite Hparse.
Qed.

(** The parse of the first completion's tool calls has no [catch]: one
    payload that does not parse throws out of the request, in either
    mode. *)
Lemma malformed_first_completion_throws mode env request h first :
  truthy (Request.apiKey request) = true →
  create env h (payload request) = Ok first →
  parsed_calls env (default [] (message_tool_calls first)) = None →
  executeRequest_in mode env request h =
  (Throw SyntaxError, h ++ [EvCompletion (payload request) (Ok first)]).
Proof.
  intros Hkey Hfirst Hparsed. rewrite executeRequest_in_run.
  pose proof (executeRequest_body_run mode env request h Hkey) as Hrun.
  simpl in Hrun. rewrite Hfirst, Hparsed in Hrun. by rewrite Hrun.
Qed.

(** C1, at the failing input: the first completion requests tool A with
    the argument payload [{], which does not parse. The request does not
    drop the call: it fails with the SyntaxError of [JSON.parse], after
    its one completion invocation. *)
Theorem malformed_first_call_aborts :
  Stub.parse "{" = None
  ∧ executeRequest Stub.env_malformed Stub.request_A [] =
    (Throw SyntaxError,
     [EvCompletion (payload Stub.request_A) Stub.malformed]).
Proof. split; vm_compute; reflexivity. Qed.

(** *** Missing credential *)

(** C8: a request whose API key is missing (undefined or empty) fails
    with the error 'API key is required for OpenAI' and leaves the trace
    as it was: no completion is invoked, nor anything else. *)
Theorem missing_credential_fails env request h :
  truthy (Request.apiKey request) = false →
  executeRequest env request h =
  (Throw (Error "API key is required for OpenAI"), h).
Proof.
  intros Hkey. unfold executeRequest, executeRequest_in.
  rewrite bind_run. unfold executeRequest_body. by rewrite Hkey.
Qed.

Lemma missing_credential_fails_witness :
  truthy (Request.apiKey Stub.request_no_key) = false
  ∧ executeRequest Stub.env_looping Stub.request_no_key [] =
    (Throw (Error "API key is required for OpenAI"), []).
Proof.
  split; [reflexivity|].
  apply (missing_credential_fails Stub.env_looping Stub.request_no_key []).
  reflexivity.
Defined.

(** *** The execution mode *)

(** C2 as stated fails: a request without API key invokes the
    completion capability zero times, not once. *)
Lemma executeRequest_without_key_no_completion :
  (executeRequest Stub.env_looping Stub.request_no_key []).2 = []
  ∧ completions (executeRequest Stub.env_looping Stub.request_no_key []).2 ≠ 1.
Proof. split; [reflexivity|]. vm_compute. discriminate. Qed.

(** C2, amended: the mode is fixed to 'parameters-only', so for every
    request that has its API key, [executeRequest] invokes the completion
    capability exactly once and executes no tool; a Response it returns
    has no toolResults; and its body never reaches the [return] after
    the loop. *)
Theorem executeRequest_never_loops env request h :
  truthy (Request.apiKey request) = true →
  ∃ r evs,
    executeRequest env request h = (r, h ++ evs)
    ∧ completions evs = 1
    ∧ executions evs = 0
    ∧ (∀ resp, r = Ok resp → Response.toolResults resp = None)
    ∧ ∀ e h', executeRequest_body toolExecutionMode env request h = (Ok e, h') →
        iterations e = 0
        ∧ ∃ content tokens toolCalls,
            e = ReturnImmediately content tokens toolCalls.
Proof.
  intros Hkey. unfold executeRequest. rewrite executeRequest_in_run.
  unfold toolExecutionMode.
  destruct (parameters_only_run env request h Hkey) as (r & -> & Himmediate).
  destruct r as [e|e].
  - destruct (Himmediate e eq_refl) as (content & tokens & toolCalls & ->).
    eexists _, [_]. split; [reflexivity|]. split; [done|]. split; [done|].
    split; [by intros resp [= <-]|].
    intros e h' [= <- _]. split; [done|eauto].
  - eexists _, [_]. split; [reflexivity|]. split; [done|]. split; [done|].
    split; done.
Qed.

Lemma executeRequest_never_loops_witness :
  truthy (Request.apiKey Stub.request_A) = true
  ∧ ∃ r evs,
      executeRequest Stub.env_looping Stub.request_A [] = (r, [] ++ evs)
      ∧ completions evs = 1
      ∧ executions evs = 0
      ∧ (∀ resp, r = Ok resp → Response.toolResults resp = None)
      ∧ ∀ e h',
          executeRequest_body toolExecutionMode Stub.env_looping
            Stub.request_A [] = (Ok e, h') →
          iterations e = 0
          ∧ ∃ content tokens toolCalls,
              e = ReturnImmediately content tokens toolCalls.
Proof.
  split; [reflexivity|].
  apply (executeRequest_never_loops Stub.env_looping Stub.request_A []).
  reflexivity.
Defined.

(** C3 as stated fails: in 'parameters-only' mode too, a request
    without API key invokes the completion capability zero times. *)
Lemma parameters_only_without_key_no_completion :
  (executeRequest_in parameters_only Stub.env_looping Stub.request_no_key []).2
  = []
  ∧ completions
      (executeRequest_in parameters_only Stub.env_looping
         Stub.request_no_key []).2 ≠ 1.
Proof. split; [reflexivity|]. vm_compute. discriminate. Qed.

(** C3, amended: in 'parameters-only' mode, for every request that has
    its API key, the trace grows by the one invocation of the completion
    capability on the request's payload, whatever it answers and however
    many tool calls the answer requests, and a Response that is returned
    has no toolResults. *)
Theorem parameters_only_one_completion env request h :
  truthy (Request.apiKey request) = true →
  ∃ r,
    executeRequest_in parameters_only env request h =
    (r, h ++ [EvCompletion (payload request) (create env h (payload request))])
    ∧ completions
        [EvCompletion (payload request) (create env h (payload request))] = 1
    ∧ ∀ resp, r = Ok resp → Response.toolResults resp = None.
Proof.
  intros Hkey. rewrite executeRequest_in_run.
  destruct (parameters_only_run env request h Hkey) as (r & -> & Himmediate).
  destruct r as [e|e].
  - destruct (Himmediate e eq_refl) as (content & tokens & toolCalls & ->).
    eexists. split; [reflexivity|]. split; [done|]. by intros resp [= <-].
  - eexists. split; [reflexivity|]. done.
Qed.

Lemma parameters_only_one_completion_witness :
  truthy (Request.apiKey Stub.request_A) = true
  ∧ ∃ r,
      executeRequest_in parameters_only Stub.env_looping Stub.request_A [] =
      (r, [] ++ [EvCompletion (payload Stub.request_A)
                   (create Stub.env_looping [] (payload Stub.request_A))])
      ∧ completions
          [EvCompletion (payload Stub.request_A)
             (create Stub.env_looping [] (payload Stub.request_A))] = 1
      ∧ ∀ resp, r = Ok resp → Response.toolResults resp = None.
Proof.
  split; [reflexivity|].
  apply (parameters_only_one_completion Stub.env_looping Stub.request_A []).
  reflexivity.
Defined.

(** *** The iteration cap *)

(** At the cap the loop exits normally, with the variables as they are
    and without another invocation. *)
Lemma while_loop_at_cap env request st h :
  while_loop env request MAX_ITERATIONS st h = (Ok (MAX_ITERATIONS, st), h).
Proof. by rewrite while_loop_eq. Qed.

(** C4 as stated fails: in 'sync' mode a request without API key
    invokes the completion capability zero times, which is not 1 plus a
    number of iterations. *)
Lemma sync_without_key_no_completion :
  (executeRequest_body sync Stub.env_looping Stub.request_no_key []).2 = []
  ∧ ¬ ∃ n,
      completions
        (executeRequest_body sync Stub.env_looping Stub.request_no_key []).2
      = 1 + n.
Proof. split; [reflexivity|]. vm_compute. intros [n Hn]. discriminate. Qed.

(** C4, amended: in 'sync' mode, for every request that has its API key
    and whatever the backend answers, the completion capability is
    invoked at least once and at most 1 + 10 times; when the request
    returns, the loop has run at most 10 iterations and the number of
    completion invocations is 1 plus the number of iterations; and a
    request that reaches the cap, that is whose 11 completion invocations
    all answered, returns normally after its 10 iterations: the Response
    is built from the variables accumulated so far, which hold the
    latest text, the outputs of all the executions that succeeded and
    the token counts of all the invocations. *)
Theorem sync_iterations_bounded env request h :
  truthy (Request.apiKey request) = true →
  ∃ r evs,
    executeRequest_body sync env request h = (r, h ++ evs)
    ∧ 1 ≤ completions evs ≤ 1 + MAX_ITERATIONS
    ∧ (∀ e, r = Ok e →
         iterations e ≤ MAX_ITERATIONS
         ∧ completions evs = 1 + iterations e)
    ∧ (completions evs = 1 + MAX_ITERATIONS →
       Forall (λ ev, ¬ failed ev) evs →
       ∃ toolCalls st,
         r = Ok (ReturnAfterLoop toolCalls MAX_ITERATIONS st)
         ∧ executeRequest_in sync env request h
           = (Ok (response request
                    (ReturnAfterLoop toolCalls MAX_ITERATIONS st)), h ++ evs)
         ∧ content st = default EmptyString (last (texts evs))
         ∧ toolResults st = outputs evs
         ∧ accumulated zero_tokens (tokens st) evs)
    ∧ ∀ st h0,
        while_loop env request MAX_ITERATIONS st h0
        = (Ok (MAX_ITERATIONS, st), h0).
Proof.
  intros Hkey.
  destruct (executeRequest_body_trace sync env request h Hkey)
    as (r & evs & Hbody & _ & Hmost & Hexit).
  destruct (request_invariant env request
    (λ st evs, content st = default EmptyString (last (texts evs))
               ∧ toolResults st = outputs evs)
    (λ evs e, ∃ evs0 p, evs = evs0 ++ [EvCompletion p (Throw e)]))
    with (mode := sync) (h := h)
    as (r' & evs' & Hbody' & Hend); try done.
  { intros st h0 calls st' evs0 evs1 [Hcontent Hresults] _ Hit.
    iteration_inv Hit. simpl. split; [by apply latest_text_step|].
    rewrite !outputs_app, Hresults. simpl. by rewrite app_nil_r. }
  { intros st h0 calls e evs0 evs1 _ _ Hit.
    iteration_inv Hit. eexists (evs0 ++ batch), _. by rewrite <- app_assoc. }
  { intros first _. split; [|done]. unfold texts. simpl.
    destruct (truthy (message_content first)) eqn:Htext; simpl; [done|].
    by apply or_empty_falsy. }
  rewrite <- app_assoc, Hbody' in Hbody.
  injection Hbody as -> ->%app_inv_head.
  exists r, ([EvCompletion (payload request) (create env h (payload request))]
             ++ evs).
  split; [done|]. rewrite completions_app.
  change (completions [_]) with 1. split; [lia|].
  assert (∀ e, r = Ok e →
            iterations e ≤ MAX_ITERATIONS
            ∧ completions evs = iterations e) as Hcount.
  { intros e He. destruct (Hexit e He) as (first & toolCalls & _ & _ & Hcase).
    destruct e as [content tokens toolCalls'|toolCalls' i st]; simpl.
    - destruct Hcase as (-> & _). split; [lia|done].
    - destruct Hcase as (_ & _ & Hloop).
      pose proof (loop_run_count _ _ _ _ _ _ _ Hloop ltac:(lia)) as Hi.
      simpl in Hi. lia. }
  split; [intros e He; destruct (Hcount e He); lia|].
  split; [|apply while_loop_at_cap].
  intros Hcap Hclean. destruct r as [e|e].
  - destruct (Hcount e eq_refl) as [_ Hi].
    destruct (Hexit e eq_refl) as (first & toolCalls & Hfirst & _ & Hcase).
    destruct Hend as (first' & Hfirst' & [Hcontent Hresults] & _).
    rewrite Hfirst in Hfirst'. injection Hfirst' as <-.
    destruct e as [content tokens toolCalls'|toolCalls' i st]; simpl in *;
      [unfold MAX_ITERATIONS in Hcap; lia|].
    assert (i = MAX_ITERATIONS) as -> by lia.
    destruct Hcase as (_ & _ & Hloop).
    exists toolCalls', st. split; [done|].
    split; [exact (executeRequest_in_body sync env request h (Ok _) _ Hbody')|].
    split; [done|]. split; [done|].
    apply loop_run_vars in Hloop as (Hacc & _).
    rewrite Hfirst. eapply (accumulated_app _ _ _ [_]); [|exact Hacc].
    unfold accumulated. simpl. repeat split; intros _; lia.
  - exfalso. simpl in Hend, Hclean.
    destruct Hend as [Hevs|[(first & Hevs & _)|(evs0 & p & Hevs)]].
    + rewrite Hevs in Hclean. by apply Forall_cons in Hclean as [Hfailed _].
    + injection Hevs as _ ->. unfold MAX_ITERATIONS in Hcap.
      change (completions []) with 0 in Hcap. lia.
    + rewrite Hevs, Forall_app, Forall_cons in Hclean.
      by destruct Hclean as (_ & Hfailed & _).
Qed.

Lemma sync_iterations_bounded_witness :
  truthy (Request.apiKey Stub.request_A) = true
  ∧ ∃ r evs,
      executeRequest_body sync Stub.env_looping Stub.request_A [] = (r, [] ++ evs)
      ∧ 1 ≤ completions evs ≤ 1 + MAX_ITERATIONS
      ∧ (∀ e, r = Ok e →
           iterations e ≤ MAX_ITERATIONS
           ∧ completions evs = 1 + iterations e)
      ∧ (completions evs = 1 + MAX_ITERATIONS →
         Forall (λ ev, ¬ failed ev) evs →
         ∃ toolCalls st,
           r = Ok (ReturnAfterLoop toolCalls MAX_ITERATIONS st)
           ∧ executeRequest_in sync Stub.env_looping Stub.request_A []
             = (Ok (response Stub.request_A
                      (ReturnAfterLoop toolCalls MAX_ITERATIONS st)), [] ++ evs)
           ∧ content st = default EmptyString (last (texts evs))
           ∧ toolResults st = outputs evs
           ∧ accumulated zero_tokens (tokens st) evs)
      ∧ ∀ st h0,
          while_loop Stub.env_looping Stub.request_A MAX_ITERATIONS st h0
          = (Ok (MAX_ITERATIONS, st), h0).
Proof.
  split; [reflexivity|].
  apply (sync_iterations_bounded Stub.env_looping Stub.request_A []).
  reflexivity.
Defined.

(** A backend that requests a tool on every completion: the request
    returns after 10 iterations and 11 completion invocations, with the
    10 tool results. *)
Example looping_backend_stops_at_cap :
  ∃ toolCalls st h',
    executeRequest_body sync Stub.env_looping Stub.request_A []
    = (Ok (ReturnAfterLoop toolCalls MAX_ITERATIONS st), h')
    ∧ completions h' = 11
    ∧ length (toolResults st) = 10
    ∧ length (currentMessages st) = length (allMessages Stub.request_A) + 20.
Proof.
  eexists _, _, _. split; [vm_compute; reflexivity|].
  split; [|split]; vm_compute; reflexivity.
Qed.

(** *** Token usage *)

(** The counts of a completion, read as doubles, are doubles. *)
Lemma usage_tokens_doubles currentResponse :
  doubles (usage_tokens currentResponse).
Proof.
  unfold doubles, usage_tokens.
  destruct (Completion.usage currentResponse); simpl.
  - repeat split; apply to_double_is_double.
  - repeat split; by left.
Qed.

(** The update of the counts after a completion keeps them doubles and
    does not decrease them. *)
Lemma next_vars_tokens_le st acc currentResponse :
  doubles (tokens st) →
  tokens_le (tokens st) (tokens (next_vars st acc currentResponse))
  ∧ doubles (tokens (next_vars st acc currentResponse)).
Proof.
  intros (Hp & Hc & Ht). unfold tokens_le, doubles, next_vars; simpl.
  destruct (Completion.usage currentResponse); simpl.
  - repeat split; by (apply js_add_ge || apply js_add_is_double).
  - repeat split; done.
Qed.

(** C5 as stated fails: the counts are JavaScript numbers, whose
    addition rounds past 2^53. A first completion with prompt usage 2^53
    and a second with prompt usage 1 leave the returned prompt count at
    2^53 = 9007199254740992, one less than the sum over the two
    invocations. *)
Lemma token_sum_is_rounded :
  match
    (executeRequest_in sync Scenario.env_huge Stub.request_A []).1
  with
  | Ok resp => Tokens.prompt (Response.tokens resp) = 9007199254740992%N
  | Throw _ => False
  end
  ∧ total_of Tokens.prompt
      (executeRequest_in sync Scenario.env_huge Stub.request_A []).2
    = 9007199254740993%N.
Proof. split; vm_compute; reflexivity. Qed.

(** C5, amended: each token count of a returned Response is the sum of
    that count over every completion invocation the request performed,
    an absent usage or count being 0, whenever that sum is at most 2^53
    (up to there JavaScript numbers add exactly); and in every case the
    running counts are JavaScript numbers from the first completion on,
    and no iteration of the loop decreases one. *)
Theorem tokens_are_exact_sums mode env request h resp h' :
  executeRequest_in mode env request h = (Ok resp, h') →
  (∃ evs,
     h' = h ++ evs
     ∧ ((total_of Tokens.prompt evs ≤ MAX_EXACT)%N →
        Tokens.prompt (Response.tokens resp) = total_of Tokens.prompt evs)
     ∧ ((total_of Tokens.completion evs ≤ MAX_EXACT)%N →
        Tokens.completion (Response.tokens resp)
        = total_of Tokens.completion evs)
     ∧ ((total_of Tokens.total evs ≤ MAX_EXACT)%N →
        Tokens.total (Response.tokens resp) = total_of Tokens.total evs))
  ∧ (∀ first, doubles (tokens (initial_vars request first)))
  ∧ ∀ calls st h0 st' h1,
      doubles (tokens st) →
      iteration env request calls st h0 = (Ok st', h1) →
      tokens_le (tokens st) (tokens st') ∧ doubles (tokens st').
Proof.
  intros Hrun. split; [|split].
  - rewrite executeRequest_in_run in Hrun.
    destruct (truthy (Request.apiKey request)) eqn:Hkey.
    2: { unfold executeRequest_body in Hrun. by rewrite Hkey in Hrun. }
    destruct (executeRequest_body_trace mode env request h Hkey)
      as (r & evs & Hbody & _ & _ & Hexit).
    rewrite Hbody in Hrun. destruct r as [e|e]; [|done].
    injection Hrun as <- <-.
    destruct (Hexit e eq_refl) as (first & toolCalls & -> & _ & Hcase).
    eexists. rewrite <- app_assoc. split; [reflexivity|].
    destruct e as [content tokens toolCalls'|toolCalls' i st]; simpl.
    + destruct Hcase as (-> & _ & -> & _). simpl.
      repeat split; intros _; lia.
    + destruct Hcase as (_ & _ & Hloop).
      apply loop_run_vars in Hloop as ((Hp & Hc & Ht) & _).
      simpl in Hp, Hc, Ht. auto.
  - intros first. apply usage_tokens_doubles.
  - intros calls st h0 st' h1 Hdoubles Hit.
    destruct (iteration_run env request calls st h0) as (acc & evs & _ & Hstep).
    simpl in Hstep. rewrite Hstep in Hit.
    destruct (create env _ _) as [currentResponse|e]; [|done].
    injection Hit as <- _. by apply next_vars_tokens_le.
Qed.

Lemma tokens_are_exact_sums_witness :
  ∃ resp h',
    executeRequest_in sync Stub.env_three Stub.request_A [] = (Ok resp, h')
    ∧ completions h' = 3
    ∧ Response.tokens resp
      = {| Tokens.prompt := 30; Tokens.completion := 15; Tokens.total := 45 |}
    ∧ (∃ evs,
         h' = [] ++ evs
         ∧ ((total_of Tokens.prompt evs ≤ MAX_EXACT)%N →
            Tokens.prompt (Response.tokens resp) = total_of Tokens.prompt evs)
         ∧ ((total_of Tokens.completion evs ≤ MAX_EXACT)%N →
            Tokens.completion (Response.tokens resp)
            = total_of Tokens.completion evs)
         ∧ ((total_of Tokens.total evs ≤ MAX_EXACT)%N →
            Tokens.total (Response.tokens resp) = total_of Tokens.total evs))
    ∧ (∀ first, doubles (tokens (initial_vars Stub.request_A first)))
    ∧ ∀ calls st h0 st' h1,
        doubles (tokens st) →
        iteration Stub.env_three Stub.request_A calls st h0 = (Ok st', h1) →
        tokens_le (tokens st) (tokens st') ∧ doubles (tokens st').
Proof.
  eexists _, _. split; [vm_compute; reflexivity|].
  split; [vm_compute; reflexivity|]. split; [reflexivity|].
  apply (tokens_are_exact_sums sync Stub.env_three Stub.request_A []).
  vm_compute; reflexivity.
Defined.

(** On the run of the witness the three sums are within the exact
    range, so the counts are the sums: 30, 15 and 45 over three
    invocations of usage 10, 5, 15. *)
Example three_invocations_sum :
  let run := executeRequest_in sync Stub.env_three Stub.request_A [] in
  (total_of Tokens.prompt run.2 ≤ MAX_EXACT)%N
  ∧ total_of Tokens.prompt run.2 = 30%N
  ∧ total_of Tokens.completion run.2 = 15%N
  ∧ total_of Tokens.total run.2 = 45%N.
Proof. repeat split; vm_compute; (reflexivity || discriminate). Qed.

(** *** The reported tool calls *)

Lemma parsed_calls_Forall2 env calls toolCalls :
  parsed_calls env calls = Some toolCalls →
  Forall2 (λ toolCall requested,
             RequestedCall.name requested = ToolCall.name toolCall
             ∧ JSON_parse env (ToolCall.arguments toolCall)
               = Some (RequestedCall.arguments requested))
    calls toolCalls.
Proof.
  revert toolCalls. induction calls as [|toolCall rest IH]; simpl; intros toolCalls.
  - intros [= <-]. constructor.
  - destruct (JSON_parse env _) as [args|] eqn:Hargs; simpl; [|done].
    destruct (parsed_calls env rest) as [parsed|]; simpl; [|done].
    intros [= <-]. constructor; [by split|by apply IH].
Qed.

Lemma or_undefined_default {A} (l : list A) : default [] (or_undefined l) = l.
Proof. by destruct l. Qed.

Lemma or_undefined_None {A} (l : list A) : or_undefined l = None ↔ l = [].
Proof. by destruct l. Qed.

(** C6: the toolCalls of a returned Response are the tool calls of the
    first completion, each with its name and its parsed arguments,
    whatever the later completions of the trace request; the field is
    absent exactly when the first completion requested none. *)
Theorem toolCalls_from_first_completion mode env request h resp h' :
  executeRequest_in mode env request h = (Ok resp, h') →
  ∃ first evs,
    h' = h ++ EvCompletion (payload request) (Ok first) :: evs
    ∧ Forall2 (λ toolCall requested,
                 RequestedCall.name requested = ToolCall.name toolCall
                 ∧ JSON_parse env (ToolCall.arguments toolCall)
                   = Some (RequestedCall.arguments requested))
        (default [] (message_tool_calls first))
        (default [] (Response.toolCalls resp))
    ∧ (Response.toolCalls resp = None
       ↔ default [] (message_tool_calls first) = []).
Proof.
  intros Hrun. rewrite executeRequest_in_run in Hrun.
  destruct (truthy (Request.apiKey request)) eqn:Hkey.
  2: { unfold executeRequest_body in Hrun. by rewrite Hkey in Hrun. }
  destruct (executeRequest_body_trace mode env request h Hkey)
    as (r & evs & Hbody & _ & _ & Hexit).
  rewrite Hbody in Hrun. destruct r as [e|e]; [|done].
  injection Hrun as <- <-.
  destruct (Hexit e eq_refl) as (first & toolCalls & -> & Hparsed & Hcase).
  exists first, evs. rewrite <- app_assoc. split; [done|].
  assert (Response.toolCalls (response request e) = or_undefined toolCalls)
    as ->.
  { destruct e; simpl; [by destruct Hcase as (_ & _ & _ & ->)
                       |by destruct Hcase as (_ & -> & _)]. }
  rewrite or_undefined_default, or_undefined_None.
  split; [by apply parsed_calls_Forall2|].
  apply parsed_calls_length in Hparsed.
  split; [intros ->|intros Hnone; rewrite Hnone in Hparsed];
    by apply length_zero_iff_nil.
Qed.

Lemma toolCalls_from_first_completion_witness :
  ∃ resp h',
    executeRequest_in sync Stub.env_A_then_B Stub.request_AB [] = (Ok resp, h')
    ∧ completions h' = 3
    ∧ RequestedCall.name <$> default [] (Response.toolCalls resp) = ["A"]
    ∧ ∃ first evs,
        h' = [] ++ EvCompletion (payload Stub.request_AB) (Ok first) :: evs
        ∧ Forall2 (λ toolCall requested,
                     RequestedCall.name requested = ToolCall.name toolCall
                     ∧ JSON_parse Stub.env_A_then_B (ToolCall.arguments toolCall)
                       = Some (RequestedCall.arguments requested))
            (default [] (message_tool_calls first))
            (default [] (Response.toolCalls resp))
        ∧ (Response.toolCalls resp = None
           ↔ default [] (message_tool_calls first) = []).
Proof.
  eexists _, _. split; [vm_compute; reflexivity|].
  split; [vm_compute; reflexivity|]. split; [reflexivity|].
  apply (toolCalls_from_first_completion sync Stub.env_A_then_B
           Stub.request_AB []).
  vm_compute; reflexivity.
Defined.

(** *** Merged arguments *)

(** C7: when the model supplies an object to a tool that has default
    parameters, the executor is invoked with the tool's name, the raw
    flag, and arguments in which every key the model supplied has the
    model's value and every other key has its default. *)
Theorem merged_arguments env request toolCall tool defaults supplied acc h :
  JSON_parse env (ToolCall.arguments toolCall) = Some (JObject supplied) →
  find_tool request (ToolCall.name toolCall) = Some tool →
  Tool.params tool = Some defaults →
  ∃ r mergedArgs answer,
    processToolCall env request toolCall acc h =
    (r, h ++ [EvExecuteTool (ToolCall.name toolCall) mergedArgs true answer])
    ∧ ∀ key,
        mergedArgs !! key =
        match supplied !! key with
        | Some value => Some value
        | None => defaults !! key
        end.
Proof.
  intros Hparse Hfind Hparams. unfold processToolCall.
  rewrite Hparse, Hfind, Hparams, bind_run. simpl.
  unfold await_executeTool.
  destruct (executeTool env h _ _ true) as [result|e] eqn:Hanswer.
  - destruct (ToolResponse.success result); simpl;
      eexists _, _, _; (split; [reflexivity|]);
      intros key; rewrite lookup_union; by destruct (supplied !! key), (defaults !! key).
  - eexists _, _, _. split; [reflexivity|].
    intros key. rewrite lookup_union.
    by destruct (supplied !! key), (defaults !! key).
Qed.

Lemma merged_arguments_witness :
  JSON_parse Stub.env_looping (ToolCall.arguments Stub.call_y9)
  = Some (JObject {[ "y" := JNumber 9 ]})
  ∧ find_tool Stub.request_A (ToolCall.name Stub.call_y9)
    = Some (Stub.tool "A" (Some Stub.defaults))
  ∧ ∃ r mergedArgs answer,
      processToolCall Stub.env_looping Stub.request_A Stub.call_y9 ([], []) [] =
      (r, [] ++ [EvExecuteTool (ToolCall.name Stub.call_y9) mergedArgs true
                   answer])
      ∧ ∀ key,
          mergedArgs !! key =
          match ({[ "y" := JNumber 9 ]} : gmap string Json) !! key with
          | Some value => Some value
          | None => Stub.defaults !! key
          end.
Proof.
  split; [vm_compute; reflexivity|]. split; [reflexivity|].
  apply (merged_arguments Stub.env_looping Stub.request_A Stub.call_y9
           (Stub.tool "A" (Some Stub.defaults)) Stub.defaults
           {[ "y" := JNumber 9 ]} ([], []) []);
    [vm_compute; reflexivity|reflexivity|reflexivity].
Defined.

(** Defaults [{x: 1, y: 2}] and model arguments [{y: 9}] merge to
    [{x: 1, y: 9}], which is what the executor receives. *)
Example merged_arguments_x1_y9 :
  (processToolCall Stub.env_looping Stub.request_A Stub.call_y9 ([], []) []).2
  = [EvExecuteTool "A" {[ "x" := JNumber 1; "y" := JNumber 9 ]} true
       (Stub.echo "A" {[ "x" := JNumber 1; "y" := JNumber 9 ]})].
Proof. vm_compute. reflexivity. Qed.

(** *** Tools in the payload *)

Lemma payload_tools request :
  match Request.tools request with
  | Some (tool :: rest) =>
      Payload.tools (payload request) = Some (schema <$> tool :: rest)
      ∧ Payload.tool_choice (payload request) = Some "auto"
  | Some [] | None =>
      Payload.tools (payload request) = None
      ∧ Payload.tool_choice (payload request) = None
  end.
Proof.
  unfold payload, tools; simpl. by destruct (Request.tools request) as [[|? ?]|].
Qed.

(** C9: every payload a request sends to the completion capability, the
    first and those of the loop, has neither a tools field nor a tool
    choice when the request's tool set is absent or empty, and has the
    function declarations of the tools with the tool choice 'auto' when
    the tool set is not empty. *)
Theorem tools_sent_iff_supplied mode env request h :
  ∃ r evs,
    executeRequest_in mode env request h = (r, h ++ evs)
    ∧ ∀ p answer,
        EvCompletion p answer ∈ evs →
        match Request.tools request with
        | Some (tool :: rest) =>
            Payload.tools p = Some (schema <$> tool :: rest)
            ∧ Payload.tool_choice p = Some "auto"
        | Some [] | None =>
            Payload.tools p = None ∧ Payload.tool_choice p = None
        end.
Proof.
  destruct (executeRequest_in_trace mode env request h)
    as (r & evs & Hrun & Hsends).
  exists r, evs. split; [done|]. intros p answer Hin.
  rewrite Forall_forall in Hsends. destruct (Hsends _ Hin) as [-> ->].
  apply payload_tools.
Qed.

(** A request with an empty tool list, then one with a tool: what the
    backend receives. *)
Example empty_tool_list_omitted :
  (executeRequest Stub.env_looping (Stub.request (Some "sk-test") (Some [])) []).2
  = [EvCompletion
       {| Payload.model := "gpt-4o";
          Payload.messages :=
            [ChatMessage "system" "You are a helpful assistant";
             ChatMessage "user" "hello"];
          Payload.temperature := None;
          Payload.max_tokens := None;
          Payload.response_format := None;
          Payload.tools := None;
          Payload.tool_choice := None |}
       Stub.looping].
Proof. reflexivity. Qed.

(** *** Conversation state *)

(** One call of a batch leaves the messages with exactly two more
    entries when its tool is found and the executor reports success,
    first the assistant entry of the call, then the tool entry of its
    output, both with the call's id; it leaves the messages and the
    results as they were when the tool name is unknown or the executor
    reports failure. *)
Lemma tryToolCall_pushes env request toolCall results messages h :
  ∃ results' messages' evs,
    tryToolCall env request toolCall (results, messages) h
    = (Ok (results', messages'), h ++ evs)
    ∧ (∀ toolArgs tool result,
         JSON_parse env (ToolCall.arguments toolCall) = Some toolArgs →
         find_tool request (ToolCall.name toolCall) = Some tool →
         executeTool env h (ToolCall.name toolCall)
           (spread toolArgs ∪ spread_opt (Tool.params tool)) true = Ok result →
         if ToolResponse.success result
         then
           messages' =
           messages ++
           [AssistantToolCall (ToolCall.id toolCall) (ToolCall.name toolCall)
              (ToolCall.arguments toolCall);
            ToolMessage (ToolCall.id toolCall)
              (JSON_stringify env (ToolResponse.output result))]
           ∧ results' = results ++ [ToolResponse.output result]
         else messages' = messages ∧ results' = results)
    ∧ (find_tool request (ToolCall.name toolCall) = None →
       messages' = messages ∧ results' = results)
    ∧ length messages' = length messages + 2 * successes evs.
Proof.
  unfold tryToolCall, try_catch, processToolCall.
  destruct (JSON_parse env _) as [toolArgs|].
  2: { exists results, messages, []. rewrite app_nil_r. simpl.
       repeat split; try done; change (successes []) with 0; lia. }
  destruct (find_tool _ _) as [tool|].
  2: { exists results, messages, []. rewrite app_nil_r. simpl.
       repeat split; try done; change (successes []) with 0; lia. }
  rewrite bind_run. unfold await_executeTool.
  destruct (executeTool env h _ _ true) as [result|e] eqn:Hanswer.
  - destruct (ToolResponse.success result) eqn:Hsuccess; simpl;
      eexists _, _, [_]; (split; [reflexivity|]); (split; [|split; [done|]]).
    + intros ? ? ? [= <-] [= <-] Hresult. rewrite Hanswer in Hresult.
      injection Hresult as <-. by rewrite Hsuccess.
    + unfold successes; simpl. rewrite Hsuccess, length_app. simpl. lia.
    + intros ? ? ? [= <-] [= <-] Hresult. rewrite Hanswer in Hresult.
      injection Hresult as <-. by rewrite Hsuccess.
    + unfold successes; simpl. rewrite Hsuccess. simpl. lia.
  - simpl. eexists _, _, [_]. split; [reflexivity|]. split; [|split; [done|]].
    + intros ? ? ? [= <-] [= <-] Hresult. by rewrite Hanswer in Hresult.
    + change (successes [_]) with 0. lia.
Qed.

(** The entries of two batches, one after the other. *)
Lemma entries_app env executed executed' outs outs' :
  length executed = length outs →
  entries env (executed ++ executed') (outs ++ outs')
  = entries env executed outs ++ entries env executed' outs'.
Proof.
  intros Hlen. unfold entries. by rewrite zip_with_app, concat_app.
Qed.

Lemma requested_calls_app evs evs' :
  requested_calls (evs ++ evs') = requested_calls evs ++ requested_calls evs'.
Proof. apply bind_app. Qed.

Lemma requested_calls_batch batch :
  Forall (λ ev, is_completion ev = false) batch → requested_calls batch = [].
Proof.
  induction 1 as [|[p a|name args raw a] batch Hev _ IH]; [done|done|].
  exact IH.
Qed.

(** The calls of a batch that were executed with success, as a sublist
    of the batch, and the entries pushed for them. *)
Lemma tryToolCall_entries env request toolCall acc h :
  ∃ evs executed,
    tryToolCall env request toolCall acc h
    = (Ok (acc.1 ++ outputs evs,
           acc.2 ++ entries env executed (outputs evs)), h ++ evs)
    ∧ executed `sublist_of` [toolCall]
    ∧ length executed = successes evs
    ∧ Forall (λ ev, is_completion ev = false) evs.
Proof.
  unfold tryToolCall, try_catch, processToolCall. destruct acc as [results messages].
  destruct (JSON_parse env _) as [toolArgs|].
  2: { exists [], []. simpl. rewrite !app_nil_r.
       repeat split; auto using sublist_nil_l. }
  destruct (find_tool _ _) as [tool|].
  2: { exists [], []. simpl. rewrite !app_nil_r.
       repeat split; auto using sublist_nil_l. }
  rewrite bind_run. unfold await_executeTool.
  destruct (executeTool env h _ _ true) as [result|e].
  - destruct (ToolResponse.success result) eqn:Hsuccess; simpl.
    + eexists [EvExecuteTool _ _ _ (Ok result)], [toolCall].
      unfold successes, outputs, entries; simpl. rewrite Hsuccess. simpl.
      split; [reflexivity|]. repeat split; auto; by repeat constructor.
    + eexists [EvExecuteTool _ _ _ (Ok result)], [].
      unfold successes, outputs, entries; simpl. rewrite Hsuccess. simpl.
      rewrite !app_nil_r. split; [reflexivity|].
      repeat split; auto using sublist_nil_l; by repeat constructor.
  - simpl. eexists [EvExecuteTool _ _ _ (Throw e)], []. simpl.
    rewrite !app_nil_r. split; [reflexivity|].
    repeat split; auto using sublist_nil_l; by repeat constructor.
Qed.

Lemma forToolCalls_entries env request calls acc h :
  ∃ evs executed,
    forToolCalls env request calls acc h
    = (Ok (acc.1 ++ outputs evs,
           acc.2 ++ entries env executed (outputs evs)), h ++ evs)
    ∧ executed `sublist_of` calls
    ∧ length executed = successes evs
    ∧ Forall (λ ev, is_completion ev = false) evs.
Proof.
  revert acc h. induction calls as [|toolCall rest IH]; intros acc h; simpl.
  - exists [], []. rewrite ret_run. simpl. rewrite !app_nil_r.
    destruct acc. repeat split; auto; constructor.
  - rewrite bind_run.
    destruct (tryToolCall_entries env request toolCall acc h)
      as (evs1 & executed1 & -> & Hsub1 & Hlen1 & Hc1).
    destruct (IH (acc.1 ++ outputs evs1,
                  acc.2 ++ entries env executed1 (outputs evs1)) (h ++ evs1))
      as (evs2 & executed2 & -> & Hsub2 & Hlen2 & Hc2).
    exists (evs1 ++ evs2), (executed1 ++ executed2). simpl.
    rewrite outputs_app, successes_app, length_app, entries_app, !app_assoc
      by by rewrite outputs_length.
    split; [done|]. split; [by apply (sublist_app _ [_])|].
    split; [lia|by apply Forall_app].
Qed.

(** One iteration, on the Conversation State: the messages after it are
    the messages before it followed by the entries of the calls of the
    batch that were executed with success, and they are the messages of
    the payload of the completion invoked at its end. *)
Lemma iteration_entries env request calls st h st' h' :
  iteration env request calls st h = (Ok st', h') →
  ∃ batch executed answer,
    h' = h ++ batch
           ++ [EvCompletion
                 (with_messages (payload request) (currentMessages st'))
                 (Ok answer)]
    ∧ Forall (λ ev, is_completion ev = false) batch
    ∧ executed `sublist_of` calls
    ∧ length executed = successes batch
    ∧ currentMessages st'
      = currentMessages st ++ entries env executed (outputs batch)
    ∧ toolResults st' = toolResults st ++ outputs batch
    ∧ toolCallsInResponse st' = message_tool_calls answer.
Proof.
  destruct (forToolCalls_entries env request calls
              (toolResults st, currentMessages st) h)
    as (batch & executed & Hfor & Hsub & Hlen & Hbatch).
  destruct (iteration_run env request calls st h) as (acc & evs & Hfor' & Hit).
  rewrite Hfor in Hfor'. injection Hfor' as <- <-%app_inv_head.
  simpl in Hit. rewrite Hit.
  destruct (create env _ _) as [answer|e]; [|done].
  intros [= <- <-]. by exists batch, executed, answer.
Qed.

(** Over a whole request in 'sync' mode: the messages at the return are
    the conversation of the request followed by two entries for every
    tool execution of the trace that succeeded, and the tool results are
    the outputs of those executions. *)
Lemma sync_messages_of_request env request h toolCalls iterationCount st h' :
  executeRequest_body sync env request h
  = (Ok (ReturnAfterLoop toolCalls iterationCount st), h') →
  ∃ evs pushed,
    h' = h ++ evs
    ∧ currentMessages st = allMessages request ++ pushed
    ∧ length pushed = 2 * successes evs
    ∧ toolResults st = outputs evs.
Proof.
  intros Hrun.
  destruct (truthy (Request.apiKey request)) eqn:Hkey.
  2: { unfold executeRequest_body in Hrun. by rewrite Hkey in Hrun. }
  destruct (executeRequest_body_trace sync env request h Hkey)
    as (r & evs & Hbody & _ & _ & Hexit).
  rewrite Hbody in Hrun. injection Hrun as -> <-.
  destruct (Hexit _ eq_refl) as (first & toolCalls' & Hfirst & _ & _ & _ & Hloop).
  apply loop_run_vars in Hloop as (_ & Hresults & pushed & Hmessages & Hlen).
  eexists _, pushed. rewrite <- app_assoc. split; [reflexivity|].
  rewrite successes_app, outputs_app. simpl in *.
  split; [done|]. split; [by rewrite Hlen|done].
Qed.

(** C10: in 'sync' mode the Conversation State, the messages the loop
    keeps and sends with each next completion, grows by exactly two
    entries for each tool call that is executed with success, first the
    assistant entry that records the call, then the tool entry that
    records its result, both with the id of the call, and by nothing for
    a call that is skipped. For one call: found and reported successful
    by the executor, it pushes these two entries; unknown, or reported
    failed, it pushes nothing. For one iteration: the messages after it,
    which are those of the payload of its completion, are the messages
    before it followed by the two entries of each call of the batch
    executed with success, in order. For a request that returns after
    the loop: its messages are the conversation of the request followed
    by the two entries of each requested call executed with success. *)
Theorem two_messages_per_executed_call env request :
  (∀ toolCall results messages h,
     ∃ results' messages' evs,
       tryToolCall env request toolCall (results, messages) h
       = (Ok (results', messages'), h ++ evs)
       ∧ (∀ toolArgs tool result,
            JSON_parse env (ToolCall.arguments toolCall) = Some toolArgs →
            find_tool request (ToolCall.name toolCall) = Some tool →
            executeTool env h (ToolCall.name toolCall)
              (spread toolArgs ∪ spread_opt (Tool.params tool)) true
            = Ok result →
            if ToolResponse.success result
            then
              messages' =
              messages ++
              [AssistantToolCall (ToolCall.id toolCall)
                 (ToolCall.name toolCall) (ToolCall.arguments toolCall);
               ToolMessage (ToolCall.id toolCall)
                 (JSON_stringify env (ToolResponse.output result))]
              ∧ results' = results ++ [ToolResponse.output result]
            else messages' = messages ∧ results' = results)
       ∧ (find_tool request (ToolCall.name toolCall) = None →
          messages' = messages ∧ results' = results)
       ∧ length messages' = length messages + 2 * successes evs)
  ∧ (∀ calls st h st' h',
       iteration env request calls st h = (Ok st', h') →
       ∃ evs executed answer,
         h' = h ++ evs
         ∧ last evs
           = Some (EvCompletion
                     (with_messages (payload request) (currentMessages st'))
                     answer)
         ∧ executed `sublist_of` calls
         ∧ length executed = successes evs
         ∧ currentMessages st'
           = currentMessages st ++ entries env executed (outputs evs)
         ∧ length (currentMessages st')
           = length (currentMessages st) + 2 * successes evs)
  ∧ (∀ h toolCalls iterationCount st h',
       executeRequest_body sync env request h
       = (Ok (ReturnAfterLoop toolCalls iterationCount st), h') →
       ∃ evs executed,
         h' = h ++ evs
         ∧ executed `sublist_of` requested_calls evs
         ∧ length executed = successes evs
         ∧ currentMessages st
           = allMessages request ++ entries env executed (outputs evs)
         ∧ length (currentMessages st)
           = length (allMessages request) + 2 * successes evs).
Proof.
  assert (∀ executed outs,
            length executed = length outs →
            length (entries env executed outs) = 2 * length outs) as Hentries.
  { intros executed. unfold entries.
    induction executed as [|toolCall executed IH]; intros [|output outs];
      simpl; try done.
    intros [= Hlen]. rewrite (IH _ Hlen). lia. }
  split; [|split].
  - intros toolCall results messages h. apply tryToolCall_pushes.
  - intros calls st h st' h' Hit.
    apply iteration_entries in Hit
      as (batch & executed & answer & -> & Hbatch & Hsub & Hlen & Hmsgs & _).
    eexists (batch ++ [_]), executed, (Ok answer).
    split; [done|]. rewrite last_snoc, successes_app, outputs_app. simpl.
    change (successes [_]) with 0. rewrite app_nil_r, Nat.add_0_r.
    repeat split; try done.
    rewrite Hmsgs, length_app, Hentries, outputs_length; [lia|].
    by rewrite outputs_length.
  - intros h toolCalls iterationCount st h' Hrun.
    destruct (truthy (Request.apiKey request)) eqn:Hkey.
    2: { by rewrite executeRequest_body_no_key in Hrun. }
    destruct (request_invariant env request
      (λ st evs, ∃ earlier executed,
         requested_calls evs = earlier ++ default [] (toolCallsInResponse st)
         ∧ executed `sublist_of` earlier
         ∧ length executed = successes evs
         ∧ currentMessages st
           = allMessages request ++ entries env executed (outputs evs))
      (λ _ _, True)) with (mode := sync) (h := h)
      as (r & evs & Hbody & Hend); try done.
    + intros st0 h0 calls st' evs0 evs1
        (earlier & executed & Hreq & Hsub & Hlen & Hmsgs) Hcalls Hit.
      apply iteration_entries in Hit
        as (batch & executed' & answer & ->%app_inv_head & Hbatch & Hsub'
            & Hlen' & Hmsgs' & _ & Hnext).
      exists (earlier ++ calls), (executed ++ executed').
      rewrite !requested_calls_app, !successes_app, !outputs_app, Hreq, Hcalls,
        (requested_calls_batch _ Hbatch), Hnext, Hmsgs', Hmsgs.
      change (successes [_]) with 0. simpl.
      rewrite !app_nil_r, entries_app, length_app, <- !app_assoc
        by by rewrite outputs_length.
      repeat split; [by apply sublist_app|lia].
    + intros first _. exists [], []. simpl. rewrite !app_nil_r.
      repeat split; auto; constructor.
    + rewrite Hbody in Hrun. injection Hrun as -> <-.
      destruct Hend
        as (first & _ & (earlier & executed & Hreq & Hsub & Hlen & Hmsgs) & _).
      simpl in *. exists evs, executed. split; [done|].
      split; [rewrite Hreq; by apply sublist_inserts_r|].
      split; [done|]. split; [done|].
      rewrite Hmsgs, length_app, Hentries, outputs_length; [lia|].
      by rewrite outputs_length.
Qed.

(** An executor that reports failure, and a tool name the request does
    not have: nothing is pushed. *)
Example failed_execution_pushes_nothing :
  tryToolCall (Stub.env [] Stub.looping Stub.failing) Stub.request_A
    (Stub.call "c1" "A" "{}") ([], []) []
  = (Ok ([], []),
     [EvExecuteTool "A" Stub.defaults true (Stub.failing "A" Stub.defaults)]).
Proof. vm_compute. reflexivity. Qed.

Example unknown_tool_pushes_nothing :
  tryToolCall Stub.env_looping Stub.request_A (Stub.call "c1" "B" "{}")
    ([], []) []
  = (Ok ([], []), []).
Proof. vm_compute. reflexivity. Qed.

(** One malformed call between two calls of tool A that succeed: four
    messages are pushed, two for each of the calls that ran. *)
Example malformed_call_between_two :
  forToolCalls Stub.env_looping Stub.request_A
    [Stub.call "c1" "A" "{}"; Stub.call "c2" "A" "{"; Stub.call_y9]
    ([], []) []
  = (Ok ([JObject Stub.defaults;
          JObject {[ "x" := JNumber 1; "y" := JNumber 9 ]}],
         [AssistantToolCall "c1" "A" "{}";
          ToolMessage "c1" (Stub.stringify (JObject Stub.defaults));
          AssistantToolCall "c1" "A" (Stub.member "y" "9");
          ToolMessage "c1"
            (Stub.stringify (JObject {[ "x" := JNumber 1; "y" := JNumber 9 ]}))]),
     [EvExecuteTool "A" Stub.defaults true (Stub.echo "A" Stub.defaults);
      EvExecuteTool "A" {[ "x" := JNumber 1; "y" := JNumber 9 ]} true
        (Stub.echo "A" {[ "x" := JNumber 1; "y" := JNumber 9 ]})]).
Proof. vm_compute. reflexivity. Qed.

(** ** More properties of the provider *)

(** *** The conversation sent to the backend *)

(** X1: every payload a request sends to the completion capability is
    the first payload with only its messages changed, and its messages
    are the conversation of the request (system prompt, context, the
    caller's messages) followed by pairs of an assistant call entry and
    the tool entry that answers it under the same id. *)
Theorem every_payload_continues mode env request h :
  ∃ r evs,
    executeRequest_in mode env request h = (r, h ++ evs)
    ∧ Forall (continues request) (payloads evs).
Proof.
  destruct (truthy (Request.apiKey request)) eqn:Hkey.
  2: { eexists _, []. rewrite app_nil_r, executeRequest_in_run,
         executeRequest_body_no_key by done. split; [done|constructor]. }
  assert (continues request (payload request)) as Hfirst.
  { exists []. rewrite app_nil_r. split; [done|constructor]. }
  destruct (request_invariant env request
    (λ st evs, (∃ pushed, currentMessages st = allMessages request ++ pushed
                          ∧ paired pushed)
               ∧ Forall (continues request) (payloads evs))
    (λ evs _, Forall (continues request) (payloads evs))) with (mode := mode) (h := h)
    as (r & evs & Hbody & Hend); try done.
  - intros st h0 calls st' evs0 evs [(pushed0 & Hmsgs & Hp0) Hall] _ Hit.
    iteration_inv Hit. simpl.
    rewrite !payloads_app, Hpayloads, Hmsgs, <- app_assoc. simpl.
    split; [exists (pushed0 ++ pushed); split; [done|by apply paired_app]|].
    apply Forall_app. split; [done|]. constructor; [|done].
    exists (pushed0 ++ pushed). split; [done|by apply paired_app].
  - intros st h0 calls e evs0 evs [(pushed0 & Hmsgs & Hp0) Hall] _ Hit.
    iteration_inv Hit.
    rewrite !payloads_app, Hpayloads, Hmsgs, <- app_assoc. simpl.
    apply Forall_app. split; [done|]. constructor; [|done].
    exists (pushed0 ++ pushed). split; [done|by apply paired_app].
  - intros first _. split; [|by repeat constructor].
    exists []. rewrite app_nil_r. split; [done|constructor].
  - exists (match r with Ok e => Ok (response request e) | Throw e => Throw e end), evs.
    split; [by apply executeRequest_in_body|].
    destruct r as [e|e].
    + by destruct Hend as (first & _ & [_ Hall] & _).
    + destruct Hend as [->|[(first & -> & _)|Hall]]; by repeat constructor.
Qed.

(** X2: the conversation only grows: the messages of each payload a
    request sends are a prefix of the messages of every payload it sends
    later. *)
Theorem conversation_only_grows mode env request h :
  ∃ r evs,
    executeRequest_in mode env request h = (r, h ++ evs)
    ∧ StronglySorted
        (λ p q, Payload.messages p `prefix_of` Payload.messages q)
        (payloads evs).
Proof.
  destruct (truthy (Request.apiKey request)) eqn:Hkey.
  2: { eexists _, []. rewrite app_nil_r, executeRequest_in_run,
         executeRequest_body_no_key by done. split; [done|constructor]. }
  set (grows := λ p q : Payload.t,
                  Payload.messages p `prefix_of` Payload.messages q).
  assert (∀ ps (msgs pushed : list Message),
            StronglySorted grows ps →
            Forall (λ p, Payload.messages p `prefix_of` msgs) ps →
            StronglySorted grows
              (ps ++ [with_messages (payload request) (msgs ++ pushed)])
            ∧ Forall (λ p, Payload.messages p `prefix_of` msgs ++ pushed)
                (ps ++ [with_messages (payload request) (msgs ++ pushed)]))
    as Hsnoc.
  { intros ps msgs pushed Hsorted Hall. split.
    - apply StronglySorted_app_2; [|done|by repeat constructor].
      intros p q Hp ->%list_elem_of_singleton. unfold grows. simpl.
      rewrite Forall_forall in Hall. by apply prefix_app_r, Hall.
    - apply Forall_app. split; [|by repeat constructor].
      eapply Forall_impl; [exact Hall|]. intros p Hp. by apply prefix_app_r. }
  destruct (request_invariant env request
    (λ st evs, StronglySorted grows (payloads evs)
               ∧ Forall (λ p, Payload.messages p `prefix_of` currentMessages st)
                   (payloads evs))
    (λ evs _, StronglySorted grows (payloads evs))) with (mode := mode) (h := h)
    as (r & evs & Hbody & Hend); try done.
  - intros st h0 calls st' evs0 evs [Hsorted Hall] _ Hit.
    iteration_inv Hit. simpl.
    rewrite !payloads_app, Hpayloads. simpl. by apply Hsnoc.
  - intros st h0 calls e evs0 evs [Hsorted Hall] _ Hit.
    iteration_inv Hit.
    rewrite !payloads_app, Hpayloads. simpl. by apply Hsnoc.
  - intros first _. split; by repeat constructor.
  - exists (match r with Ok e => Ok (response request e) | Throw e => Throw e end), evs.
    split; [by apply executeRequest_in_body|].
    destruct r as [e|e].
    + by destruct Hend as (first & _ & [Hsorted _] & _).
    + destruct Hend as [->|[(first & -> & _)|Hsorted]]; by repeat constructor.
Qed.

(** *** What the Response aggregates *)

(** X3: the content of a returned Response is the text of the last
    completion of the request that had a non-empty text, and the empty
    string when no completion had one: a later completion without text
    leaves the earlier text in place. *)
Theorem content_is_latest_text mode env request h :
  ∃ r evs,
    executeRequest_in mode env request h = (r, h ++ evs)
    ∧ ∀ resp, r = Ok resp →
        Response.content resp = default EmptyString (last (texts evs)).
Proof.
  destruct (truthy (Request.apiKey request)) eqn:Hkey.
  2: { eexists _, []. rewrite app_nil_r, executeRequest_in_run,
         executeRequest_body_no_key by done. split; [done|done]. }
  destruct (request_invariant env request
    (λ st evs, content st = default EmptyString (last (texts evs)))
    (λ _ _, True)) with (mode := mode) (h := h)
    as (r & evs & Hbody & Hend); try done.
  - intros st h0 calls st' evs0 evs Hcontent _ Hit.
    iteration_inv Hit. simpl.
    rewrite !texts_app, Htexts. unfold texts at 2. simpl.
    destruct (truthy (message_content a)); simpl.
    + by rewrite last_snoc.
    + by rewrite app_nil_r.
  - intros first _. unfold texts. simpl.
    destruct (truthy (message_content first)) eqn:Htext; simpl; [done|].
    by apply or_empty_falsy.
  - exists (match r with Ok e => Ok (response request e) | Throw e => Throw e end), evs.
    split; [by apply executeRequest_in_body|].
    destruct r as [e|e]; [|done].
    destruct Hend as (first & _ & Hcontent & Hresp & _).
    intros resp [= <-]. by rewrite Hresp.
Qed.

(** X4: the toolResults of a returned Response are the outputs of the
    tool executions of the request that succeeded, in the order they
    were executed and over all iterations; the field is absent when none
    succeeded. *)
Theorem toolResults_are_successful_outputs mode env request h :
  ∃ r evs,
    executeRequest_in mode env request h = (r, h ++ evs)
    ∧ ∀ resp, r = Ok resp →
        Response.toolResults resp = or_undefined (outputs evs).
Proof.
  destruct (truthy (Request.apiKey request)) eqn:Hkey.
  2: { eexists _, []. rewrite app_nil_r, executeRequest_in_run,
         executeRequest_body_no_key by done. split; [done|done]. }
  destruct (request_invariant env request
    (λ st evs, toolResults st = outputs evs)
    (λ _ _, True)) with (mode := mode) (h := h)
    as (r & evs & Hbody & Hend); try done.
  - intros st h0 calls st' evs0 evs Hresults _ Hit.
    iteration_inv Hit. simpl.
    rewrite !outputs_app, Hresults. simpl. by rewrite app_nil_r.
  - exists (match r with Ok e => Ok (response request e) | Throw e => Throw e end), evs.
    split; [by apply executeRequest_in_body|].
    destruct r as [e|e]; [|done].
    destruct Hend as (first & _ & Hresults & _ & Hresp & _).
    intros resp [= <-]. by rewrite Hresp, Hresults.
Qed.

(** *** Failures *)

(** In a trace whose only failed completion is its last event, a failed
    completion is that last event. *)
Lemma failed_is_last evs0 last evs1 ev evs2 :
  Forall (λ ev, ¬ failed ev) evs0 → failed ev →
  evs0 ++ [last] = evs1 ++ ev :: evs2 →
  evs2 = [] ∧ ev = last.
Proof.
  intros Hclean Hfailed Heq.
  destruct evs2 as [|ev' evs2 _] using rev_ind.
  - by apply app_inj_tail in Heq as [_ ->].
  - rewrite app_comm_cons, app_assoc in Heq.
    apply app_inj_tail in Heq as [-> _].
    rewrite Forall_app, Forall_cons in Hclean.
    by destruct Hclean as (_ & Hev & _).
Qed.

(** X5: a completion invocation that fails is the last thing a request
    does, and the request fails with that very error: no event follows
    it in the trace and no Response is returned. *)
Theorem backend_failure_is_fatal mode env request h :
  ∃ r evs,
    executeRequest_in mode env request h = (r, h ++ evs)
    ∧ ∀ evs1 p e evs2,
        evs = evs1 ++ EvCompletion p (Throw e) :: evs2 →
        evs2 = [] ∧ r = Throw e.
Proof.
  destruct (truthy (Request.apiKey request)) eqn:Hkey.
  2: { eexists _, []. rewrite app_nil_r, executeRequest_in_run,
         executeRequest_body_no_key by done. split; [done|].
       by intros [|? ?] ? ? ? ?. }
  destruct (request_invariant env request
    (λ _ evs, Forall (λ ev, ¬ failed ev) evs)
    (λ evs e, ∃ evs0 p, evs = evs0 ++ [EvCompletion p (Throw e)]
                        ∧ Forall (λ ev, ¬ failed ev) evs0))
    with (mode := mode) (h := h)
    as (r & evs & Hbody & Hend); try done.
  - intros st h0 calls st' evs0 evs Hclean _ Hit.
    iteration_inv Hit. rewrite !Forall_app. split; [done|].
    split; [done|]. constructor; [by intros []|constructor].
  - intros st h0 calls e evs0 evs Hclean _ Hit.
    iteration_inv Hit. eexists (evs0 ++ batch), _. rewrite <- app_assoc.
    split; [done|]. by apply Forall_app.
  - intros first _. constructor; [by intros []|constructor].
  - exists (match r with Ok e => Ok (response request e) | Throw e => Throw e end), evs.
    split; [by apply executeRequest_in_body|].
    intros evs1 p e evs2 Hevs. destruct r as [e'|e'].
    + destruct Hend as (first & _ & Hclean & _). subst evs.
      rewrite Forall_app, Forall_cons in Hclean.
      by destruct Hclean as (_ & Hev & _).
    + assert (failed (EvCompletion p (Throw e))) as Hfailed by done.
      destruct Hend as [->|[(first & -> & _)|(evs0 & p0 & -> & Hclean)]].
      * destruct (failed_is_last [] _ _ _ _ ltac:(constructor) Hfailed Hevs)
          as [-> [= _ <-]]. done.
      * destruct (failed_is_last [] _ _ _ _ ltac:(constructor) Hfailed Hevs)
          as [_ [=]].
      * destruct (failed_is_last _ _ _ _ _ Hclean Hfailed Hevs)
          as [-> [= _ <-]]. done.
Qed.

(** X6: a request fails for one of three reasons only: the API key is
    missing (nothing was invoked); the tool calls of the first
    completion do not parse (after that one invocation); or the last
    event of its trace is a completion invocation that failed with the
    same error. A tool that fails or throws never fails the request. *)
Theorem failure_has_three_causes mode env request h :
  ∃ r evs,
    executeRequest_in mode env request h = (r, h ++ evs)
    ∧ ∀ e, r = Throw e →
        (truthy (Request.apiKey request) = false
         ∧ evs = []
         ∧ e = Error "API key is required for OpenAI")
        ∨ (∃ first,
             evs = [EvCompletion (payload request) (Ok first)]
             ∧ parsed_calls env (default [] (message_tool_calls first)) = None
             ∧ e = SyntaxError)
        ∨ (∃ evs0 p, evs = evs0 ++ [EvCompletion p (Throw e)]).
Proof.
  destruct (truthy (Request.apiKey request)) eqn:Hkey.
  2: { eexists _, []. rewrite app_nil_r, executeRequest_in_run,
         executeRequest_body_no_key by done. split; [done|].
       intros e [= <-]. by left. }
  destruct (request_invariant env request
    (λ _ _, True)
    (λ evs e, ∃ evs0 p, evs = evs0 ++ [EvCompletion p (Throw e)]))
    with (mode := mode) (h := h)
    as (r & evs & Hbody & Hend); try done.
  - intros st h0 calls e evs0 evs _ _ Hit.
    iteration_inv Hit. eexists (evs0 ++ batch), _. by rewrite <- app_assoc.
  - exists (match r with Ok e => Ok (response request e) | Throw e => Throw e end), evs.
    split; [by apply executeRequest_in_body|].
    intros e He. destruct r as [e'|e']; [done|]. injection He as ->.
    destruct Hend as [->|[Hparse|Hlast]]; [|by right; left|by right; right].
    right; right. by exists [], (payload request).
Qed.

(** *** Tool executions *)


(** X8: the executor is invoked at most once for each tool call the
    completions of the request asked for. *)
Theorem executions_at_most_requested mode env request h :
  ∃ r evs,
    executeRequest_in mode env request h = (r, h ++ evs)
    ∧ executions evs ≤ requested evs.
Proof.
  destruct (truthy (Request.apiKey request)) eqn:Hkey.
  2: { eexists _, []. rewrite app_nil_r, executeRequest_in_run,
         executeRequest_body_no_key by done. split; [done|]. done. }
  destruct (request_invariant env request
    (λ st evs, executions evs + length (default [] (toolCallsInResponse st))
               ≤ requested evs)
    (λ evs _, executions evs ≤ requested evs))
    with (mode := mode) (h := h)
    as (r & evs & Hbody & Hend); try done.
  - intros st h0 calls st' evs0 evs Hle Hcalls Hit.
    iteration_inv Hit. rewrite Hcalls in Hle. simpl in *.
    rewrite !executions_app, !requested_app, Hrequested, Hexecutions.
    unfold executions at 2, requested at 2. simpl. lia.
  - intros st h0 calls e evs0 evs Hle Hcalls Hit.
    iteration_inv Hit. rewrite Hcalls in Hle. simpl in *.
    rewrite !executions_app, !requested_app, Hrequested, Hexecutions.
    unfold executions at 2, requested at 2. simpl. lia.
  - intros first _. unfold executions, requested. simpl. lia.
  - exists (match r with Ok e => Ok (response request e) | Throw e => Throw e end), evs.
    split; [by apply executeRequest_in_body|].
    destruct r as [e|e].
    + destruct Hend as (first & _ & Hle & _). lia.
    + destruct Hend as [->|[(first & -> & _)|Hle]];
        [unfold executions, requested; simpl; lia..|done].
Qed.

(** *** How the loop ends *)

(** X9: in 'sync' mode a request returns only when its last completion
    requested no tool call or when the loop has run its 10 iterations:
    while the model keeps requesting tools and the cap is not reached,
    the loop goes on. *)
Theorem returns_at_cap_or_without_calls env request h :
  ∃ r evs,
    executeRequest_body sync env request h = (r, h ++ evs)
    ∧ ∀ e, r = Ok e →
        ∃ evs0 p last,
          evs = evs0 ++ [EvCompletion p (Ok last)]
          ∧ (iterations e = MAX_ITERATIONS
             ∨ default [] (message_tool_calls last) = []).
Proof.
  destruct (truthy (Request.apiKey request)) eqn:Hkey.
  2: { eexists _, []. rewrite app_nil_r, executeRequest_body_no_key by done.
       split; [done|done]. }
  destruct (request_invariant env request
    (λ st evs, ∃ evs0 p last,
                 evs = evs0 ++ [EvCompletion p (Ok last)]
                 ∧ toolCallsInResponse st = message_tool_calls last)
    (λ _ _, True)) with (mode := sync) (h := h)
    as (r & evs & Hbody & Hend); try done.
  - intros st h0 calls st' evs0 evs _ _ Hit.
    iteration_inv Hit. eexists (evs0 ++ batch), _, _.
    by rewrite <- app_assoc.
  - intros first _. by exists [], (payload request), first.
  - exists r, evs. split; [done|]. intros e ->.
    destruct Hend as (first & _ & (evs0 & p & last & -> & Hcalls) & _ & _ & Hstop).
    exists evs0, p, last. split; [done|].
    destruct Hstop as [[[=] _]|[Hcap|Hnone]]; [by left|right].
    by rewrite <- Hcalls.
Qed.

(** X10: when the first completion requests no tool call, 'sync' mode
    does what 'parameters-only' mode does: the same result and the same
    trace, with its single completion invocation. *)
Theorem sync_without_calls_is_parameters_only env request h :
  (∀ first,
     create env h (payload request) = Ok first →
     default [] (message_tool_calls first) = []) →
  executeRequest_in sync env request h = executeRequest env request h.
Proof.
  intros Hnone. unfold executeRequest, toolExecutionMode.
  rewrite !executeRequest_in_run.
  destruct (truthy (Request.apiKey request)) eqn:Hkey.
  2: { by rewrite !executeRequest_body_no_key. }
  pose proof (executeRequest_body_run sync env request h Hkey) as Hsync.
  pose proof (executeRequest_body_run parameters_only env request h Hkey)
    as Honly.
  simpl in Hsync, Honly.
  destruct (create env h (payload request)) as [first|e]; [|by rewrite Hsync, Honly].
  rewrite (Hnone first eq_refl) in Hsync, Honly. simpl in Hsync, Honly.
  by rewrite Hsync, Honly.
Qed.

Lemma sync_without_calls_is_parameters_only_witness :
  (∀ first,
     create Scenario.env_done [] (payload Stub.request_A) = Ok first →
     default [] (message_tool_calls first) = [])
  ∧ executeRequest_in sync Scenario.env_done Stub.request_A []
    = executeRequest Scenario.env_done Stub.request_A [].
Proof.
  assert (∀ first,
            create Scenario.env_done [] (payload Stub.request_A) = Ok first →
            default [] (message_tool_calls first) = []) as Hnone.
  { intros first [= <-]. reflexivity. }
  split; [exact Hnone|].
  apply (sync_without_calls_is_parameters_only Scenario.env_done
           Stub.request_A [] Hnone).
Defined.

(** *** The model *)

(** X11: a returned Response reports the model of the request as the
    caller gave it, while every payload asks the backend for that model
    or, when the caller gave none (or an empty name), for 'gpt-4o': a
    request without model is answered by 'gpt-4o' and its Response has
    no model. *)
Theorem response_echoes_requested_model mode env request h :
  ∃ r evs,
    executeRequest_in mode env request h = (r, h ++ evs)
    ∧ (∀ resp, r = Ok resp → Response.model resp = Request.model request)
    ∧ Forall (λ p, Payload.model p =
                   if truthy (Request.model request)
                   then or_empty (Request.model request) else "gpt-4o")
        (payloads evs).
Proof.
  destruct (truthy (Request.apiKey request)) eqn:Hkey.
  2: { eexists _, []. rewrite app_nil_r, executeRequest_in_run,
         executeRequest_body_no_key by done. split; [done|].
       split; [done|constructor]. }
  set (asked := λ p : Payload.t,
                  Payload.model p =
                  if truthy (Request.model request)
                  then or_empty (Request.model request) else "gpt-4o").
  destruct (request_invariant env request
    (λ _ evs, Forall asked (payloads evs))
    (λ evs _, Forall asked (payloads evs))) with (mode := mode) (h := h)
    as (r & evs & Hbody & Hend); try done.
  - intros st h0 calls st' evs0 evs Hall _ Hit.
    iteration_inv Hit. rewrite !payloads_app, Hpayloads. simpl.
    apply Forall_app. by repeat constructor.
  - intros st h0 calls e evs0 evs Hall _ Hit.
    iteration_inv Hit. rewrite !payloads_app, Hpayloads. simpl.
    apply Forall_app. by repeat constructor.
  - intros first _. by repeat constructor.
  - exists (match r with Ok e => Ok (response request e) | Throw e => Throw e end), evs.
    split; [by apply executeRequest_in_body|]. split.
    + intros resp Hresp. destruct r as [e|e]; [|done].
      injection Hresp as <-. by destruct e.
    + destruct r as [e|e].
      * by destruct Hend as (first & _ & Hall & _).
      * destruct Hend as [->|[(first & -> & _)|Hall]]; by repeat constructor.
Qed.

(** *** A request without tools *)

(** X12: a request whose tool set is absent or empty never executes a
    tool, in either mode: whatever tool calls the completions request,
    the conversation stays as it was, every completion invocation gets
    the first payload again, and a returned Response has no
    toolResults. *)
Theorem without_tools_nothing_runs mode env request h :
  default [] (Request.tools request) = [] →
  ∃ r evs,
    executeRequest_in mode env request h = (r, h ++ evs)
    ∧ executions evs = 0
    ∧ Forall (λ p, p = payload request) (payloads evs)
    ∧ ∀ resp, r = Ok resp → Response.toolResults resp = None.
Proof.
  intros Hnone.
  destruct (truthy (Request.apiKey request)) eqn:Hkey.
  2: { eexists _, []. rewrite app_nil_r, executeRequest_in_run,
         executeRequest_body_no_key by done. split; [done|].
       split; [done|]. split; [constructor|done]. }
  assert (∀ batch (pushed : list Message),
            Forall (runs_tool_of request) batch →
            Forall (λ ev, is_completion ev = false) batch →
            length pushed = 2 * successes batch →
            batch = [] ∧ pushed = []) as Hempty.
  { intros batch pushed Hruns Hbatch Hlen.
    destruct batch as [|[p a|name args raw a] batch].
    - split; [done|]. by apply length_zero_iff_nil.
    - by apply Forall_cons in Hbatch as [[=] _].
    - apply Forall_cons in Hruns as [(_ & tool & Hin & _) _].
      rewrite Hnone in Hin. by apply elem_of_nil in Hin. }
  destruct (request_invariant env request
    (λ st evs, currentMessages st = allMessages request
               ∧ toolResults st = []
               ∧ executions evs = 0
               ∧ Forall (λ p, p = payload request) (payloads evs))
    (λ evs _, executions evs = 0
              ∧ Forall (λ p, p = payload request) (payloads evs)))
    with (mode := mode) (h := h)
    as (r & evs & Hbody & Hend); try done.
  - intros st h0 calls st' evs0 evs (Hmsgs & Hresults & Hexec & Hall) _ Hit.
    iteration_inv Hit.
    destruct (Hempty _ _ Hruns Hbatch Hlen) as [-> ->]. simpl.
    rewrite !app_nil_r, Hmsgs, Hresults, executions_app, payloads_app, Hexec.
    repeat split; auto. apply Forall_app. by repeat constructor.
  - intros st h0 calls e evs0 evs (Hmsgs & Hresults & Hexec & Hall) _ Hit.
    iteration_inv Hit.
    destruct (Hempty _ _ Hruns Hbatch Hlen) as [-> ->]. simpl.
    rewrite !app_nil_r, Hmsgs, executions_app, payloads_app, Hexec.
    repeat split; auto. apply Forall_app. by repeat constructor.
  - intros first _. repeat split; auto. by repeat constructor.
  - exists (match r with Ok e => Ok (response request e) | Throw e => Throw e end), evs.
    split; [by apply executeRequest_in_body|].
    destruct r as [e|e].
    + destruct Hend as (first & _ & (_ & Hresults & Hexec & Hall) & _ & Hresp & _).
      repeat split; auto. intros resp [= <-]. by rewrite Hresp, Hresults.
    + destruct Hend as [->|[(first & -> & _)|[Hexec Hall]]];
        repeat split; auto; by repeat constructor.
Qed.

Lemma without_tools_nothing_runs_witness :
  default [] (Request.tools Scenario.request_plain) = []
  ∧ ∃ r evs,
      executeRequest_in sync Stub.env_looping Scenario.request_plain []
      = (r, [] ++ evs)
      ∧ executions evs = 0
      ∧ Forall (λ p, p = payload Scenario.request_plain) (payloads evs)
      ∧ ∀ resp, r = Ok resp → Response.toolResults resp = None.
Proof.
  split; [reflexivity|].
  apply (without_tools_nothing_runs sync Stub.env_looping
           Scenario.request_plain []).
  reflexivity.
Defined.

(** Without tools and with a backend that requests a tool on every
    completion, 'sync' mode sends the same payload 11 times. *)
Example without_tools_looping_backend :
  payloads
    (executeRequest_in sync Stub.env_looping Scenario.request_plain []).2
  = replicate 11 (payload Scenario.request_plain).
Proof. vm_compute. reflexivity. Qed.

(** *** Tool results in the conversation *)

(** Where a trace that ends in [last] splits at an event. *)
Lemma split_snoc {A} (l : list A) last l1 x l2 :
  l ++ [last] = l1 ++ x :: l2 →
  (l2 = [] ∧ l1 = l ∧ x = last) ∨ (∃ l2', l2 = l2' ++ [last] ∧ l = l1 ++ x :: l2').
Proof.
  intros Heq. destruct l2 as [|x' l2 _] using rev_ind.
  - apply app_inj_tail in Heq as [-> ->]. by left.
  - rewrite app_comm_cons, app_assoc in Heq.
    apply app_inj_tail in Heq as [-> ->]. right. by exists l2.
Qed.

(** A completion event of a trace that ends in a batch is before the
    batch. *)
Lemma split_before_batch evs0 batch evs1 p a evs2 :
  Forall (λ ev, is_completion ev = false) batch →
  evs0 ++ batch = evs1 ++ EvCompletion p a :: evs2 →
  ∃ evs2', evs2 = evs2' ++ batch ∧ evs0 = evs1 ++ EvCompletion p a :: evs2'.
Proof.
  revert evs2. induction batch as [|ev batch IH] using rev_ind; intros evs2 Hbatch Heq.
  - exists evs2. by rewrite !app_nil_r in *.
  - apply Forall_app in Hbatch as [Hbatch Hev]. apply Forall_cons in Hev as [Hev _].
    rewrite app_assoc in Heq.
    apply split_snoc in Heq as [(_ & _ & <-)|(evs2' & -> & Heq)]; [done|].
    destruct (IH _ Hbatch Heq) as (evs2'' & -> & ->).
    exists evs2''. by rewrite <- app_assoc.
Qed.

(** X13: every payload a request sends carries the conversation of the
    request plus exactly two messages for each tool execution that
    succeeded before it: a completion is invoked only after the results
    of all earlier executions are in the conversation. *)
Theorem payload_carries_earlier_results mode env request h :
  ∃ r evs,
    executeRequest_in mode env request h = (r, h ++ evs)
    ∧ ∀ evs1 p answer evs2,
        evs = evs1 ++ EvCompletion p answer :: evs2 →
        length (Payload.messages p)
        = length (allMessages request) + 2 * successes evs1.
Proof.
  destruct (truthy (Request.apiKey request)) eqn:Hkey.
  2: { eexists _, []. rewrite app_nil_r, executeRequest_in_run,
         executeRequest_body_no_key by done. split; [done|].
       by intros [|? ?] ? ? ? ?. }
  set (carried := λ evs : list Event,
        ∀ evs1 p answer evs2,
          evs = evs1 ++ EvCompletion p answer :: evs2 →
          length (Payload.messages p)
          = length (allMessages request) + 2 * successes evs1).
  assert (∀ evs0 batch (msgs pushed : list Message) answer,
            carried evs0 →
            Forall (λ ev, is_completion ev = false) batch →
            length msgs = length (allMessages request) + 2 * successes evs0 →
            length pushed = 2 * successes batch →
            carried (evs0 ++ batch
                     ++ [EvCompletion
                           (with_messages (payload request) (msgs ++ pushed))
                           answer])) as Hsnoc.
  { intros evs0 batch msgs pushed answer Hcarried Hbatch Hmsgs Hpushed
      evs1 p a evs2 Heq.
    rewrite app_assoc in Heq.
    apply split_snoc in Heq as [(_ & -> & [= -> _])|(evs2' & -> & Heq)].
    - simpl. rewrite length_app, successes_app. lia.
    - apply split_before_batch in Heq as (evs2'' & _ & Heq); [|done].
      by eapply Hcarried. }
  destruct (request_invariant env request
    (λ st evs, carried evs
               ∧ length (currentMessages st)
                 = length (allMessages request) + 2 * successes evs)
    (λ evs _, carried evs)) with (mode := mode) (h := h)
    as (r & evs & Hbody & Hend); try done.
  - intros st h0 calls st' evs0 evs [Hcarried Hmsgs] _ Hit.
    iteration_inv Hit. simpl. split; [by apply Hsnoc|].
    rewrite length_app, !successes_app. change (successes [_]) with 0. lia.
  - intros st h0 calls e evs0 evs [Hcarried Hmsgs] _ Hit.
    iteration_inv Hit. by apply Hsnoc.
  - intros first _. split; [|done].
    intros evs1 p a evs2 Heq.
    apply (split_snoc []) in Heq as [(_ & -> & [= -> _])|(evs2' & _ & Heq)];
      [done|by destruct evs1].
  - exists (match r with Ok e => Ok (response request e) | Throw e => Throw e end), evs.
    split; [by apply executeRequest_in_body|].
    destruct r as [e|e].
    + by destruct Hend as (first & _ & [Hcarried _] & _).
    + destruct Hend as [->|[(first & -> & _)|Hcarried]]; [| |done];
        intros evs1 p a evs2 Heq;
        (apply (split_snoc []) in Heq as [(_ & -> & [= -> _])|(evs2' & _ & Heq)];
         [done|by destruct evs1]).
Qed.

(** *** Arguments that are not an object *)

(** X14: when the model supplies arguments that parse to null, a boolean
    or a number, the call is not dropped: the tool is executed with
    exactly its default parameters (with no argument when it has
    none). *)
Theorem primitive_arguments_give_defaults env request toolCall tool toolArgs acc h :
  JSON_parse env (ToolCall.arguments toolCall) = Some toolArgs →
  match toolArgs with
  | JNull | JBool _ | JNumber _ => True
  | JString _ | JArray _ | JObject _ => False
  end →
  find_tool request (ToolCall.name toolCall) = Some tool →
  ∃ r answer,
    processToolCall env request toolCall acc h =
    (r, h ++ [EvExecuteTool (ToolCall.name toolCall)
                (default ∅ (Tool.params tool)) true answer]).
Proof.
  intros Hparse Hprimitive Hfind. unfold processToolCall.
  rewrite Hparse, Hfind, bind_run. unfold await_executeTool.
  assert (spread toolArgs ∪ spread_opt (Tool.params tool)
          = default ∅ (Tool.params tool)) as ->.
  { destruct toolArgs; try done; simpl; apply (left_id_L ∅ (∪)). }
  destruct (executeTool env h _ _ true) as [result|e]; simpl; [|by eexists _, _].
  destruct (ToolResponse.success result); by eexists _, _.
Qed.

Lemma primitive_arguments_give_defaults_witness :
  JSON_parse Stub.env_looping (ToolCall.arguments (Stub.call "c1" "A" "null"))
  = Some JNull
  ∧ find_tool Stub.request_A (ToolCall.name (Stub.call "c1" "A" "null"))
    = Some (Stub.tool "A" (Some Stub.defaults))
  ∧ ∃ r answer,
      processToolCall Stub.env_looping Stub.request_A
        (Stub.call "c1" "A" "null") ([], []) [] =
      (r, [] ++ [EvExecuteTool (ToolCall.name (Stub.call "c1" "A" "null"))
                   (default ∅ (Tool.params (Stub.tool "A" (Some Stub.defaults))))
                   true answer]).
Proof.
  split; [vm_compute; reflexivity|]. split; [reflexivity|].
  apply (primitive_arguments_give_defaults Stub.env_looping Stub.request_A
           (Stub.call "c1" "A" "null") (Stub.tool "A" (Some Stub.defaults))
           JNull ([], []) []);
    [vm_compute; reflexivity|exact I|reflexivity].
Defined.

(** *** The properties on concrete runs *)

(** Text in the first completion, none in the two that follow: the
    Response keeps the first text, after three invocations and two
    executions. *)
Example earlier_text_is_kept :
  ∃ resp h',
    executeRequest_in sync Scenario.env_text_then_silence Stub.request_A []
    = (Ok resp, h')
    ∧ Response.content resp = "first"
    ∧ completions h' = 3
    ∧ executions h' = 2
    ∧ length <$> (Payload.messages <$> payloads h') = [2; 4; 6].
Proof.
  eexists _, _. split; [vm_compute; reflexivity|].
  repeat split; vm_compute; reflexivity.
Qed.

(** The backend fails on its second invocation: the request fails with
    the backend's error, after the execution of the first batch. *)
Example backend_failure_ends_request :
  executeRequest_in sync Scenario.env_backend_down Stub.request_A []
  = (Throw (Rejected "503"),
     [EvCompletion (payload Stub.request_A) Stub.looping;
      EvExecuteTool "A" Stub.defaults true (Stub.echo "A" Stub.defaults);
      EvCompletion
        (with_messages (payload Stub.request_A)
           (allMessages Stub.request_A
            ++ [AssistantToolCall "c1" "A" "{}";
                ToolMessage "c1" (Stub.stringify (JObject Stub.defaults))]))
        (Throw (Rejected "503"))]).
Proof. vm_compute. reflexivity. Qed.
